(** * rod-wrap: a browser session wrapper and its profile store

    A shallow embedding of the Go package (profile.go, the launch options and
    chrome.go) together with the properties its specification states.

    The package talks to three things it does not own: the host file system
    (package os), the JSON decoder, and the browser driver (go-rod).  The file
    system is modelled concretely as a finite map from paths to nodes; the
    decoder and the driver are interfaces whose results the theorems
    quantify over. *)

From stdpp Require Import gmap strings list fin_maps sorting.

Local Open Scope string_scope.
Local Open Scope list_scope.

(** ** Go values shared by all files *)

(** A Go [error] that is either nil ([None]) or carries a code. *)
Inductive Errno := ENOENT | EEXIST | ENOTDIR | EISDIR | EACCES.

Abbreviation error := (option Errno).

#[global] Instance Errno_eq_dec : EqDecision Errno.
Proof. solve_decision. Defined.

(** Records written by log/slog; the attributes are dropped. *)
Inductive Level := LevelInfo | LevelWarn | LevelError.

Record LogRecord := mkLog { log_level : Level; log_msg : string }.

#[global] Instance Level_eq_dec : EqDecision Level.
Proof. solve_decision. Defined.

#[global] Instance LogRecord_eq_dec : EqDecision LogRecord.
Proof. solve_decision. Defined.

(** ** The host: file system, environment, log *)

(** A path is the list of its components below the root.  [filepath.Join] of
    a path with plain names (the only way this package builds paths) is then
    concatenation; the lexical cleaning Go applies to "." and ".." components
    is outside the model. *)
Abbreviation path := (list string).

Definition filepath_Join (p : path) (names : list string) : path := p ++ names.

(** A node carries its permission bits; a directory's children are the keys
    one component longer. *)
Inductive node :=
  | File (perm : N) (data : string)
  | Dir (perm : N).

Abbreviation FS := (gmap path node).

Definition node_perm (n : node) : N :=
  match n with File m _ => m | Dir m => m end.

Definition node_isDir (n : node) : bool :=
  match n with File _ _ => false | Dir _ => true end.

(** Owner read and write bits (0400 and 0200). *)
Definition readable (m : N) : bool := N.testbit m 8.
Definition writable (m : N) : bool := N.testbit m 7.

Record Host := mkHost {
  fs : FS;
  GOOS : string;
  home : path;            (* os.UserHomeDir() *)
  LOCALAPPDATA : path;    (* os.Getenv("LOCALAPPDATA") *)
  tempDir : path;         (* os.TempDir() *)
  rand : list string;     (* the names os.MkdirTemp will draw next *)
  log : list LogRecord;   (* newest last *)
}.

Definition set_fs (f : FS) (h : Host) : Host :=
  mkHost f (GOOS h) (home h) (LOCALAPPDATA h) (tempDir h) (rand h) (log h).

Definition set_rand (r : list string) (h : Host) : Host :=
  mkHost (fs h) (GOOS h) (home h) (LOCALAPPDATA h) (tempDir h) r (log h).

Definition slog (lvl : Level) (msg : string) (h : Host) : Host :=
  mkHost (fs h) (GOOS h) (home h) (LOCALAPPDATA h) (tempDir h) (rand h)
         (log h ++ [mkLog lvl msg]).

Definition slog_Info := slog LevelInfo.
Definition slog_Warn := slog LevelWarn.
Definition slog_Error := slog LevelError.

(** *** Package os *)

Record FileInfo := mkFileInfo { IsDirInfo : bool; Mode : N }.

Record DirEntry := mkDirEntry { Name : string; IsDir : bool }.

Definition os_Stat (p : path) (h : Host) : Errno + FileInfo :=
  match fs h !! p with
  | None => inl ENOENT
  | Some n => inr (mkFileInfo (node_isDir n) (node_perm n))
  end.

(** mkdir(2): the parent must be a writable directory and the name free. *)
Definition os_Mkdir (p : path) (perm : N) (h : Host) : error * Host :=
  match fs h !! p with
  | Some _ => (Some EEXIST, h)
  | None =>
    match p with
    | [] => (Some ENOENT, h)
    | _ =>
      match fs h !! removelast p with
      | None => (Some ENOENT, h)
      | Some (File _ _) => (Some ENOTDIR, h)
      | Some (Dir m) =>
        if writable m then (None, set_fs (<[p := Dir perm]> (fs h)) h)
        else (Some EACCES, h)
      end
    end
  end.

(** os.MkdirAll: nothing to do for an existing directory, an error for an
    existing file, otherwise the parent first and then the directory. *)
Fixpoint os_MkdirAll_rec (n : nat) (p : path) (perm : N) (h : Host) : error * Host :=
  match fs h !! p with
  | Some (Dir _) => (None, h)
  | Some (File _ _) => (Some ENOTDIR, h)
  | None =>
    match n with
    | O => os_Mkdir p perm h
    | S n' =>
      match os_MkdirAll_rec n' (removelast p) perm h with
      | (Some err, h1) => (Some err, h1)
      | (None, h1) => os_Mkdir p perm h1
      end
    end
  end.

Definition os_MkdirAll (p : path) (perm : N) (h : Host) : error * Host :=
  os_MkdirAll_rec (length p) p perm h.

(** The last component of [k] when [k] is a child of [p]. *)
Fixpoint child_name (p k : path) : option string :=
  match p, k with
  | [], [n] => Some n
  | a :: p', b :: k' => if decide (a = b) then child_name p' k' else None
  | _, _ => None
  end.

Definition entry_le (a b : DirEntry) : Prop := String.leb (Name a) (Name b) = true.

#[global] Instance entry_le_dec a b : Decision (entry_le a b).
Proof. unfold entry_le. apply _. Defined.

Definition children (p : path) (f : FS) : list DirEntry :=
  omap (λ kn, (λ n, mkDirEntry n (node_isDir kn.2)) <$> child_name p kn.1)
       (map_to_list f).

(** os.ReadDir returns the entries sorted by file name. *)
Definition os_ReadDir (p : path) (h : Host) : Errno + list DirEntry :=
  match fs h !! p with
  | None => inl ENOENT
  | Some (File _ _) => inl ENOTDIR
  | Some (Dir m) =>
    if readable m then inr (merge_sort entry_le (children p (fs h)))
    else inl EACCES
  end.

(** An open file designates its node by path. *)
Record OsFile := mkOsFile { file_path : path }.

Definition os_Open (p : path) (h : Host) : Errno + OsFile :=
  match fs h !! p with
  | None => inl ENOENT
  | Some n => if readable (node_perm n) then inr (mkOsFile p) else inl EACCES
  end.

Definition File_Stat (f : OsFile) (h : Host) : Errno + FileInfo :=
  os_Stat (file_path f) h.

(** os.OpenFile with O_CREATE|O_WRONLY|O_TRUNC: an existing file is emptied, a
    missing one is created with [perm] in a writable parent directory. *)
Definition os_OpenFile_create_trunc (p : path) (perm : N) (h : Host)
  : (Errno + OsFile) * Host :=
  match fs h !! p with
  | Some (Dir _) => (inl EISDIR, h)
  | Some (File m _) =>
    if writable m then (inr (mkOsFile p), set_fs (<[p := File m ""]> (fs h)) h)
    else (inl EACCES, h)
  | None =>
    match p with
    | [] => (inl ENOENT, h)
    | _ =>
      match fs h !! removelast p with
      | None => (inl ENOENT, h)
      | Some (File _ _) => (inl ENOTDIR, h)
      | Some (Dir m) =>
        if writable m then (inr (mkOsFile p), set_fs (<[p := File perm ""]> (fs h)) h)
        else (inl EACCES, h)
      end
    end
  end.

(** io.Copy(dst, src): reading a directory fails with EISDIR. *)
Definition io_Copy (dst src : OsFile) (h : Host) : error * Host :=
  match fs h !! file_path src with
  | Some (File _ data) =>
    match fs h !! file_path dst with
    | Some (File m _) => (None, set_fs (<[file_path dst := File m data]> (fs h)) h)
    | _ => (Some ENOENT, h)
    end
  | Some (Dir _) => (Some EISDIR, h)
  | None => (Some ENOENT, h)
  end.

Definition os_ReadFile (p : path) (h : Host) : Errno + string :=
  match fs h !! p with
  | None => inl ENOENT
  | Some (Dir _) => inl EISDIR
  | Some (File m data) => if readable m then inr data else inl EACCES
  end.

(** os.MkdirTemp: draw names until one is free. *)
Fixpoint os_MkdirTemp_try (names : list string) (dir : path) (pattern : string)
    (h : Host) : (Errno + path) * Host :=
  match names with
  | [] => (inl EEXIST, set_rand [] h)
  | r :: names' =>
    let name := filepath_Join dir [pattern +:+ r] in
    match os_Mkdir name 448 (set_rand names' h) with
    | (None, h1) => (inr name, h1)
    | (Some EEXIST, h1) => os_MkdirTemp_try names' dir pattern h1
    | (Some err, h1) => (inl err, h1)
    end
  end.

Definition os_MkdirTemp (pattern : string) (h : Host) : (Errno + path) * Host :=
  os_MkdirTemp_try (rand h) (tempDir h) pattern h.

(** os.RemoveAll: the whole subtree goes; a missing path is not an error. *)
Definition os_RemoveAll (p : path) (h : Host) : error * Host :=
  (None, set_fs (filter (λ kn, ¬ p `prefix_of` kn.1) (fs h)) h).

(** ** profile.go *)

Record ChromeProfile := mkChromeProfile {
  ProfileName : string;   (* Name *)
  Directory : string;
  Path : path;
}.

Definition GetChromeUserDataDir (h : Host) : path :=
  if decide (GOOS h = "darwin") then
    filepath_Join (home h) ["Library"; "Application Support"; "Google"; "Chrome"]
  else if decide (GOOS h = "windows") then
    filepath_Join (LOCALAPPDATA h) ["Google"; "Chrome"; "User Data"]
  else
    filepath_Join (home h) [".config"; "google-chrome"].

Definition skipFiles : list string :=
  ["SingletonLock"; "SingletonSocket"; "SingletonCookie"; "lockfile"; "LOCK";
   "LOG"; "LOG.old"].

Definition strings_HasPrefix (s pre : string) : bool := String.prefix pre s.

Fixpoint shouldSkipFile_loop (skips : list string) (name : string) : bool :=
  match skips with
  | [] => false
  | skip :: rest =>
    if bool_decide (name = skip) || strings_HasPrefix name skip then true
    else shouldSkipFile_loop rest name
  end.

Definition shouldSkipFile (name : string) : bool :=
  shouldSkipFile_loop skipFiles name.

Definition copyFile (src dst : path) (h : Host) : error * Host :=
  match os_Open src h with
  | inl err => (Some err, h)
  | inr srcFile =>
    match File_Stat srcFile h with
    | inl err => (Some err, h)
    | inr srcInfo =>
      match os_OpenFile_create_trunc dst (Mode srcInfo) h with
      | (inl err, h) => (Some err, h)
      | (inr dstFile, h) => io_Copy dstFile srcFile h
      end
    end
  end.

(** The body of the [for _, entry := range entries] loop of copyDir; [rec] is
    the recursive call.  [None] means the recursion ran out of fuel. *)
Fixpoint copyDir_entries (rec : path → path → Host → option (error * Host))
    (src dst : path) (entries : list DirEntry) (h : Host) : option Host :=
  match entries with
  | [] => Some h
  | entry :: rest =>
    let srcPath := filepath_Join src [Name entry] in
    let dstPath := filepath_Join dst [Name entry] in
    if shouldSkipFile (Name entry) then copyDir_entries rec src dst rest h
    else if IsDir entry then
      match rec srcPath dstPath h with
      | None => None
      | Some (Some err, h) =>
        copyDir_entries rec src dst rest (slog_Warn "Failed to copy directory" h)
      | Some (None, h) => copyDir_entries rec src dst rest h
      end
    else
      match copyFile srcPath dstPath h with
      | (Some err, h) =>
        copyDir_entries rec src dst rest (slog_Warn "Failed to copy file" h)
      | (None, h) => copyDir_entries rec src dst rest h
      end
  end.

Fixpoint copyDir (fuel : nat) (src dst : path) (h : Host) : option (error * Host) :=
  match fuel with
  | O => None
  | S fuel' =>
    match os_Stat src h with
    | inl err => Some (Some err, h)
    | inr srcInfo =>
      match os_MkdirAll dst (Mode srcInfo) h with
      | (Some err, h) => Some (Some err, h)
      | (None, h) =>
        match os_ReadDir src h with
        | inl err => Some (Some err, h)
        | inr entries =>
          match copyDir_entries (copyDir fuel') src dst entries h with
          | None => None
          | Some h => Some (None, h)
          end
        end
      end
    end
  end.

Definition CopyProfile (fuel : nat) (profile : ChromeProfile) (destDir : path)
    (h : Host) : option (error * Host) :=
  copyDir fuel (Path profile) destDir h.

(** The registry file ("Local State") decodes into
    [struct { Profile struct { InfoCache map[string]struct{ Name string } } }];
    only the info_cache map is kept. *)
Record ProfileInfo := mkProfileInfo { InfoName : string }.

Record LocalState := mkLocalState { InfoCache : gmap string ProfileInfo }.

(** encoding/json at its boundary: decoding the file's bytes into the registry
    struct either fails (syntax error, or a value of the wrong JSON type) or
    yields the struct. *)
Class Decoder := {
  JsonError : Type;
  json_Unmarshal : string → JsonError + LocalState;
}.

Inductive ListError `{Decoder} :=
  | ReadFileError (err : Errno)
  | UnmarshalError (err : JsonError).

(** Go leaves the iteration order of [range] over a map unspecified; the
    model walks the map in the order of [map_to_list]. *)
Definition ListChromeProfiles `{Decoder} (h : Host) : ListError + list ChromeProfile :=
  let userDataDir := GetChromeUserDataDir h in
  let localStatePath := filepath_Join userDataDir ["Local State"] in
  match os_ReadFile localStatePath h with
  | inl err => inl (ReadFileError err)
  | inr data =>
    match json_Unmarshal data with
    | inl err => inl (UnmarshalError err)
    | inr localState =>
      inr ((λ di, mkChromeProfile (InfoName di.2) di.1
                    (filepath_Join userDataDir [di.1]))
             <$> map_to_list (InfoCache localState))
    end
  end.

(** ** The launch options *)

(** The Go strings [userDataDir] and [tmpDir] are paths or empty; empty is
    [None]. *)
Record chromeOptions := mkOptions {
  profileDir : string;
  userDataDir : option path;
  tmpDir : option path;
  headless : bool;
}.

Definition zero_chromeOptions : chromeOptions := mkOptions "" None None false.

(** A ChromeOption is a function on a pointer to chromeOptions: it updates
    the struct and may touch the host; [None] is the copy running out of
    fuel. *)
Definition ChromeOption := chromeOptions → Host → option (chromeOptions * Host).

Definition WithProfile (dir : string) : ChromeOption :=
  λ o h, Some (mkOptions dir (userDataDir o) (tmpDir o) (headless o), h).

Definition WithUserDataDir (dir : path) : ChromeOption :=
  λ o h, Some (mkOptions (profileDir o) (Some dir) (tmpDir o) (headless o), h).

Definition WithHeadless : ChromeOption :=
  λ o h, Some (mkOptions (profileDir o) (userDataDir o) (tmpDir o) true, h).

Definition WithChromeProfile (profile : ChromeProfile) : ChromeOption :=
  λ o h, Some (mkOptions (Directory profile) (Some (GetChromeUserDataDir h))
                         (tmpDir o) (headless o), h).

Definition WithCopiedProfile (fuel : nat) (profile : ChromeProfile) : ChromeOption :=
  λ o h,
  match os_MkdirTemp "rod-wrap-profile-" h with
  | (inl err, h) => Some (o, slog_Error "Failed to create temp dir" h)
  | (inr tmp, h) =>
    let o := mkOptions (profileDir o) (userDataDir o) (Some tmp) (headless o) in
    let profileDestDir := filepath_Join tmp ["Default"] in
    let h := slog_Info "Copying profile" h in
    match CopyProfile fuel profile profileDestDir h with
    | None => None
    | Some (r, h) =>
      let h := match r with
               | Some err => slog_Error "Failed to copy profile" h
               | None => h
               end in
      let chromeDataDir := GetChromeUserDataDir h in
      let localStateSrc := filepath_Join chromeDataDir ["Local State"] in
      let localStateDst := filepath_Join tmp ["Local State"] in
      let h := match copyFile localStateSrc localStateDst h with
               | (Some err, h) => slog_Warn "Failed to copy Local State" h
               | (None, h) => slog_Info "Copied Local State file" h
               end in
      let h := match os_ReadDir profileDestDir h with
               | inl err => slog_Error "Failed to read copied profile dir" h
               | inr entries => slog_Info "Copied profile contents" h
               end in
      Some (mkOptions "Default" (Some tmp) (tmpDir o) (headless o), h)
    end
  end.

(** [for _, opt := range opts { opt(options) }] *)
Fixpoint apply_options (opts : list ChromeOption) (o : chromeOptions) (h : Host)
    : option (chromeOptions * Host) :=
  match opts with
  | [] => Some (o, h)
  | opt :: rest =>
    match opt o h with
    | None => None
    | Some (o, h) => apply_options rest o h
    end
  end.

(** ** chrome.go *)

(** *** The browser driver (go-rod) at its boundary

    Each call may change the browser and may fail; the session only looks at
    whether it failed.  [element_Property] yields the property already
    rendered by [Str()]. *)
Record NetworkCookie := mkCookie {
  CookieName : string;
  CookieValue : string;
  CookieDomain : string;
}.

Class Driver := {
  Browser : Type;
  Element : Type;
  DriverError : Type;
  launcher_LookPath : option path;
  launcher_MustLaunch : chromeOptions → DriverError + Browser;
  page_Navigate : string → Browser → option DriverError * Browser;
  page_WaitLoad : Browser → option DriverError * Browser;
  page_Element : string → Browser → (DriverError + Element) * Browser;
  element_Input : Element → string → Browser → option DriverError * Browser;
  element_Property : Element → string → Browser → (DriverError + string) * Browser;
  page_Cookies : list string → Browser → (DriverError + list NetworkCookie) * Browser;
  page_Close : Browser → option DriverError * Browser;
  browser_Close : Browser → option DriverError * Browser;
}.

(** *** sync.RWMutex *)

Record RWMutex := mkRWMutex { readers : nat; writer : bool }.

Definition unlocked : RWMutex := mkRWMutex 0 false.

(** *** The session object and the world around it *)

Record chromeWebView := mkView {
  elements : gmap string string;
  listeners : gmap string bool;
  mu : RWMutex;
  ctx_done : bool;          (* ctx is cancelled *)
  stopChan_closed : bool;
  view_tmpDir : option path;
}.

(** A goroutine started by [go c.pollElementValue(id)]. *)
Record goroutine := mkGoroutine { watched : string; running : bool }.

(** How a call ends: it returns, it panics, or it parks forever on a lock
    that its own goroutine holds. *)
Inductive outcome (A : Type) :=
  | Ret (a : A)
  | Panic (msg : string)
  | Blocked.
Arguments Ret {A} a.
Arguments Panic {A} msg.
Arguments Blocked {A}.

(** The cases of the [select] in pollElementValue, and what an iteration of
    its [for] loop does next. *)
Inductive select_case := recv_ctx_Done | recv_ticker_C.

Inductive loop_ctl := LoopContinue | LoopReturn.

Section Session.
Context {D : Driver}.

Record State := mkState {
  view : chromeWebView;
  browser : Browser;
  host : Host;
  goroutines : list goroutine;
}.

Definition M (A : Type) : Type := State → outcome A * State.

Definition ret {A} (a : A) : M A := λ s, (Ret a, s).

Definition bind {A B} (m : M A) (k : A → M B) : M B :=
  λ s, match m s with
       | (Ret a, s1) => k a s1
       | (Panic msg, s1) => (Panic msg, s1)
       | (Blocked, s1) => (Blocked, s1)
       end.

Notation "x <- m ;; k" := (bind m (λ x, k))
  (at level 100, m at next level, right associativity).
Notation "m ;;; k" := (bind m (λ _, k))
  (at level 100, right associativity).

Definition get_view : M chromeWebView := λ s, (Ret (view s), s).

Definition set_view (c : chromeWebView) : M unit :=
  λ s, (Ret tt, mkState c (browser s) (host s) (goroutines s)).

Definition panic {A} (msg : string) : M A := λ s, (Panic msg, s).

Definition block {A} : M A := λ s, (Blocked, s).

(** A driver call. *)
Definition call {A} (f : Browser → A * Browser) : M A :=
  λ s, let '(a, b) := f (browser s) in
       (Ret a, mkState (view s) b (host s) (goroutines s)).

Definition on_host (f : Host → Host) : M unit :=
  λ s, (Ret tt, mkState (view s) (browser s) (f (host s)) (goroutines s)).

Definition go_pollElementValue (elementID : string) : M unit :=
  λ s, (Ret tt, mkState (view s) (browser s) (host s)
                        (goroutines s ++ [mkGoroutine elementID true])).

Definition set_mu (m : RWMutex) (c : chromeWebView) : chromeWebView :=
  mkView (elements c) (listeners c) m (ctx_done c) (stopChan_closed c) (view_tmpDir c).

Definition set_elements (e : gmap string string) (c : chromeWebView) : chromeWebView :=
  mkView e (listeners c) (mu c) (ctx_done c) (stopChan_closed c) (view_tmpDir c).

Definition set_listeners (l : gmap string bool) (c : chromeWebView) : chromeWebView :=
  mkView (elements c) l (mu c) (ctx_done c) (stopChan_closed c) (view_tmpDir c).

(** Lock waits for the writer and for every reader to leave; when the lock is
    taken the caller parks. *)
Definition mu_Lock : M unit :=
  c <- get_view ;;
  if bool_decide (readers (mu c) = 0) && negb (writer (mu c))
  then set_view (set_mu (mkRWMutex 0 true) c)
  else block.

Definition mu_Unlock : M unit :=
  c <- get_view ;;
  if writer (mu c) then set_view (set_mu (mkRWMutex (readers (mu c)) false) c)
  else panic "sync: Unlock of unlocked RWMutex".

Definition mu_RLock : M unit :=
  c <- get_view ;;
  if writer (mu c) then block
  else set_view (set_mu (mkRWMutex (S (readers (mu c))) false) c).

Definition mu_RUnlock : M unit :=
  c <- get_view ;;
  match readers (mu c) with
  | O => panic "sync: RUnlock of unlocked RWMutex"
  | S n => set_view (set_mu (mkRWMutex n (writer (mu c))) c)
  end.

(** [c.elements[elementID] = value] *)
Definition store_element (elementID value : string) : M unit :=
  c <- get_view ;; set_view (set_elements (<[elementID := value]> (elements c)) c).

Definition GetValue (elementID : string) : M string :=
  mu_RLock ;;;
  c <- get_view ;;
  let v := default "" (elements c !! elementID) in
  mu_RUnlock ;;;
  ret v.

Definition SetValue (elementID value : string) : M unit :=
  mu_Lock ;;;
  store_element elementID value ;;;
  mu_Unlock ;;;
  r <- call (page_Element ("#" +:+ elementID)) ;;
  match r with
  | inl err => on_host (slog_Error "SetValue: element not found")
  | inr el =>
    err <- call (element_Input el value) ;;
    match err with
    | Some _ => on_host (slog_Error "SetValue: input failed")
    | None => ret tt
    end
  end.

Definition setupListener (elementID : string) : M unit :=
  r <- call (page_Element ("#" +:+ elementID)) ;;
  match r with
  | inl err => on_host (slog_Error "setupListener: element not found")
  | inr el =>
    r <- call (element_Property el "value") ;;
    (match r with
     | inr prop => mu_Lock ;;; store_element elementID prop ;;; mu_Unlock
     | inl _ => ret tt
     end) ;;;
    go_pollElementValue elementID
  end.

(** [for elementID := range ids { c.setupListener(elementID) }] *)
Fixpoint range_setupListener (ids : list string) : M unit :=
  match ids with
  | [] => ret tt
  | elementID :: rest => setupListener elementID ;;; range_setupListener rest
  end.

Definition page_MustWaitLoad : M unit :=
  err <- call page_WaitLoad ;;
  match err with
  | Some _ => panic "MustWaitLoad"
  | None => ret tt
  end.

Definition Navigate (url : string) : M unit :=
  on_host (slog_Info "Navigate") ;;;
  mu_Lock ;;;
  (c <- get_view ;; set_view (set_elements ∅ c)) ;;;
  mu_Unlock ;;;
  err <- call (page_Navigate url) ;;
  match err with
  | Some _ => on_host (slog_Error "Navigate failed")
  | None =>
    page_MustWaitLoad ;;;
    mu_RLock ;;;
    c <- get_view ;;
    range_setupListener (map_to_list (listeners c)).*1 ;;;
    mu_RUnlock
  end.

Fixpoint GetCookie_loop (cookies : list NetworkCookie) (key domain : string) : string :=
  match cookies with
  | [] => ""
  | cookie :: rest =>
    if bool_decide (CookieName cookie = key)
       && (bool_decide (CookieDomain cookie = domain)
           || bool_decide (CookieDomain cookie = "." +:+ domain)
           || bool_decide (domain = "")
           || bool_decide (CookieDomain cookie = ""))
    then CookieValue cookie
    else GetCookie_loop rest key domain
  end.

Definition GetCookie (key domain : string) : M string :=
  let urls := if bool_decide (domain ≠ "") then ["https://" +:+ domain] else [] in
  r <- call (page_Cookies urls) ;;
  match r with
  | inl err => on_host (slog_Error "GetCookie failed") ;;; ret ""
  | inr cookies => ret (GetCookie_loop cookies key domain)
  end.

Definition AddListener (elementID : string) : M unit :=
  mu_Lock ;;;
  (c <- get_view ;; set_view (set_listeners (<[elementID := true]> (listeners c)) c)) ;;;
  mu_Unlock ;;;
  setupListener elementID.

Definition RemoveListener (elementID : string) : M unit :=
  mu_Lock ;;;
  (c <- get_view ;; set_view (set_listeners (delete elementID (listeners c)) c)) ;;;
  (c <- get_view ;; set_view (set_elements (delete elementID (elements c)) c)) ;;;
  mu_Unlock.

(** One pass through the [for { select { ... } }] of pollElementValue, given
    the case the select takes.  Receiving from [ctx.Done()] can proceed only
    once the context is cancelled. *)
Definition pollElementValue_iter (sel : select_case) (elementID : string) : M loop_ctl :=
  match sel with
  | recv_ctx_Done =>
    c <- get_view ;;
    if ctx_done c then ret LoopReturn else block
  | recv_ticker_C =>
    mu_RLock ;;;
    c <- get_view ;;
    let exists_ := bool_decide (is_Some (listeners c !! elementID)) in
    mu_RUnlock ;;;
    if negb exists_ then ret LoopReturn
    else
      r <- call (page_Element ("#" +:+ elementID)) ;;
      match r with
      | inl _ => ret LoopContinue
      | inr el =>
        r <- call (element_Property el "value") ;;
        match r with
        | inl _ => ret LoopContinue
        | inr prop =>
          mu_Lock ;;;
          store_element elementID prop ;;;
          mu_Unlock ;;;
          ret LoopContinue
        end
      end
  end.


(** [c.cancel()] may be called any number of times. *)
Definition cancel : M unit :=
  c <- get_view ;;
  set_view (mkView (elements c) (listeners c) (mu c) true (stopChan_closed c)
                   (view_tmpDir c)).

(** [close(c.stopChan)]: closing a closed channel panics. *)
Definition close_stopChan : M unit :=
  c <- get_view ;;
  if stopChan_closed c then panic "close of closed channel"
  else set_view (mkView (elements c) (listeners c) (mu c) (ctx_done c) true
                        (view_tmpDir c)).

Definition os_RemoveAll_M (p : path) : M error :=
  λ s, let '(err, h) := os_RemoveAll p (host s) in
       (Ret err, mkState (view s) (browser s) h (goroutines s)).

Definition Destroy : M unit :=
  cancel ;;;
  close_stopChan ;;;
  call page_Close ;;;
  call browser_Close ;;;
  c <- get_view ;;
  match view_tmpDir c with
  | Some dir =>
    err <- os_RemoveAll_M dir ;;
    match err with
    | Some _ => on_host (slog_Warn "Failed to remove temp dir")
    | None => ret tt
    end
  | None => ret tt
  end.

(** Run waits until the context is cancelled or the stop channel is closed;
    while neither has happened the caller is parked in the select. *)
Definition Run : M unit :=
  c <- get_view ;;
  if ctx_done c || stopChan_closed c then ret tt else block.

(** NewChromeWebView: the options are applied in order, the browser is
    launched (the Must calls panic on failure), and the session starts with
    empty maps, a free lock, a live context and an open stop channel. *)
Definition NewChromeWebView (opts : list ChromeOption) (h : Host)
    : option (outcome State) :=
  match apply_options opts zero_chromeOptions h with
  | None => None
  | Some (options, h) =>
    let h := match launcher_LookPath with
             | None => slog_Error "Chrome not found in system" h
             | Some _ => h
             end in
    let h := slog_Info "Chrome launch args" h in
    match launcher_MustLaunch options with
    | inl _ => Some (Panic "MustLaunch")
    | inr b =>
      Some (Ret (mkState (mkView ∅ ∅ unlocked false false (tmpDir options)) b h []))
    end
  end.

(** *** The session as a transition system

    The caller's calls and the iterations of the watcher goroutines
    interleave; each is one action. *)
Inductive action :=
  | CallNavigate (url : string)
  | CallGetValue (elementID : string)
  | CallSetValue (elementID value : string)
  | CallGetCookie (key domain : string)
  | CallAddListener (elementID : string)
  | CallRemoveListener (elementID : string)
  | CallDestroy
  | Poll (k : nat) (sel : select_case).

Definition set_goroutines (gs : list goroutine) : M unit :=
  λ s, (Ret tt, mkState (view s) (browser s) (host s) gs).

(** Goroutine [k] makes one pass through its loop; a goroutine that has
    returned makes no further move. *)
Definition poll_step (k : nat) (sel : select_case) : M unit :=
  λ s, match goroutines s !! k with
       | Some (mkGoroutine elementID true) =>
         (ctl <- pollElementValue_iter sel elementID ;;
          match ctl with
          | LoopContinue => ret tt
          | LoopReturn =>
            λ s, set_goroutines (<[k := mkGoroutine elementID false]> (goroutines s)) s
          end) s
       | _ => (Ret tt, s)
       end.

Definition step (a : action) : M unit :=
  match a with
  | CallNavigate url => Navigate url
  | CallGetValue elementID => GetValue elementID ;;; ret tt
  | CallSetValue elementID value => SetValue elementID value
  | CallGetCookie key domain => GetCookie key domain ;;; ret tt
  | CallAddListener elementID => AddListener elementID
  | CallRemoveListener elementID => RemoveListener elementID
  | CallDestroy => Destroy
  | Poll k sel => poll_step k sel
  end.

Fixpoint run (acts : list action) : M unit :=
  match acts with
  | [] => ret tt
  | a :: rest => step a ;;; run rest
  end.

End Session.

#[global] Instance select_case_eq_dec : EqDecision select_case.
Proof. solve_decision. Defined.

#[global] Instance action_eq_dec : EqDecision action.
Proof. solve_decision. Defined.

(** *** A scripted browser, for running the session on concrete inputs *)

Record ToyNode := mkToyNode {
  toy_value : option string;    (* [None]: reading the property fails *)
  toy_editable : bool;          (* whether Input succeeds *)
}.

Record ToyBrowser := mkToyBrowser {
  toy_dom : gmap string ToyNode;                  (* by selector *)
  toy_pages : gmap string (gmap string ToyNode);  (* by URL *)
  toy_cookies : list NetworkCookie;
}.

Definition toy_Navigate (url : string) (b : ToyBrowser) : option unit * ToyBrowser :=
  match toy_pages b !! url with
  | None => (Some tt, b)
  | Some d => (None, mkToyBrowser d (toy_pages b) (toy_cookies b))
  end.

Definition toy_Element (sel : string) (b : ToyBrowser) : (unit + string) * ToyBrowser :=
  match toy_dom b !! sel with
  | None => (inl tt, b)
  | Some _ => (inr sel, b)
  end.

Definition toy_Input (el value : string) (b : ToyBrowser) : option unit * ToyBrowser :=
  match toy_dom b !! el with
  | Some (mkToyNode _ true) =>
    (None, mkToyBrowser (<[el := mkToyNode (Some value) true]> (toy_dom b))
                        (toy_pages b) (toy_cookies b))
  | _ => (Some tt, b)
  end.

Definition toy_Property (el name : string) (b : ToyBrowser) : (unit + string) * ToyBrowser :=
  match toy_dom b !! el with
  | Some (mkToyNode (Some v) _) => (inr v, b)
  | _ => (inl tt, b)
  end.

#[global] Instance toy_driver : Driver := {|
  Browser := ToyBrowser;
  Element := string;
  DriverError := unit;
  launcher_LookPath := Some ["usr"; "bin"; "chrome"];
  launcher_MustLaunch := λ _, inr (mkToyBrowser ∅ ∅ []);
  page_Navigate := toy_Navigate;
  page_WaitLoad := λ b, (None, b);
  page_Element := toy_Element;
  element_Input := toy_Input;
  element_Property := toy_Property;
  page_Cookies := λ _ b, (inr (toy_cookies b), b);
  page_Close := λ b, (None, b);
  browser_Close := λ b, (None, b);
|}.

Definition toy_host : Host := mkHost {[ [] := Dir 493 ]} "linux" ["home"] [] ["tmp"] ["1"] [].

(** *** Concrete inputs *)

(** A page with an input whose value cannot be read and one that holds "x". *)
Definition toy_page : gmap string ToyNode :=
  {[ "#a" := mkToyNode None true; "#b" := mkToyNode (Some "x") true ]}.

Definition toy_browser : ToyBrowser :=
  mkToyBrowser toy_page {[ "page" := toy_page ]} [].

(** A session on [toy_browser] that watches the identifiers [ids]. *)
Definition toy_state (ids : list string) : State :=
  mkState (mkView ∅ (list_to_map ((λ i, (i, true)) <$> ids)) unlocked false false None)
          toy_browser toy_host [].

(** A profile directory with two lock files and a database (0755 and 0644). *)
Definition demo_fs : FS :=
  list_to_map
    [([], Dir 493); (["tmp"], Dir 493); (["src"], Dir 493);
     (["src"; "LOCK"], File 420 "l"); (["src"; "SingletonLock"], File 420 "s");
     (["src"; "data.db"], File 420 "d")].

Definition demo_host : Host := mkHost demo_fs "linux" ["home"] [] ["tmp"] ["1"] [].

Definition demo_profile : ChromeProfile := mkChromeProfile "Person 1" "Default" ["src"].

(** A profile with a file and a directory that cannot be read (mode 0). *)
Definition locked_fs : FS :=
  list_to_map
    [([], Dir 493); (["tmp"], Dir 493); (["src"], Dir 493);
     (["src"; "Cookies"], File 420 "c"); (["src"; "secret"], File 0 "x");
     (["src"; "vault"], Dir 0); (["src"; "vault"; "key"], File 420 "k")].

Definition locked_host : Host := mkHost locked_fs "linux" ["home"] [] ["tmp"] ["1"] [].

(** A host with Chrome's data directory, its registry file and a profile. *)
Definition chrome_fs : FS :=
  list_to_map
    [([], Dir 493); (["tmp"], Dir 493); (["home"], Dir 493);
     (["home"; ".config"], Dir 493);
     (["home"; ".config"; "google-chrome"], Dir 493);
     (["home"; ".config"; "google-chrome"; "Local State"], File 420 "{}");
     (["home"; ".config"; "google-chrome"; "Default"], Dir 493);
     (["home"; ".config"; "google-chrome"; "Default"; "Cookies"], File 420 "c");
     (["home"; ".config"; "google-chrome"; "Default"; "Preferences"], File 420 "p")].

Definition chrome_host : Host := mkHost chrome_fs "linux" ["home"] [] ["tmp"] ["7"] [].







(** A decoder that knows two registry files: "{}" holds no profile and "R1"
    holds the profile Default, named Person 1. *)
#[global] Instance toy_decoder : Decoder := {|
  JsonError := unit;
  json_Unmarshal := λ data,
    if decide (data = "{}") then inr (mkLocalState ∅)
    else if decide (data = "R1")
         then inr (mkLocalState {[ "Default" := mkProfileInfo "Person 1" ]})
         else inl tt;
|}.

Definition listed_host : Host :=
  mkHost (<[ ["home"; ".config"; "google-chrome"; "Local State"] := File 420 "R1" ]>
            chrome_fs)
         "linux" ["home"] [] ["tmp"] ["7"] [].

(** A host without Chrome's data directory, with a one-file profile and two
    names to draw for temporary directories. *)
Definition bare_fs : FS :=
  list_to_map
    [([], Dir 493); (["tmp"], Dir 493); (["p"], Dir 493);
     (["p"; "Cookies"], File 420 "c")].

Definition bare_host : Host := mkHost bare_fs "linux" ["home"] [] ["tmp"] ["7"; "8"] [].

Definition bare_profile : ChromeProfile := mkChromeProfile "Person 1" "Default" ["p"].

(** ** Vocabulary of the properties *)

(** Neither path lies inside the other. *)
Definition apart (p q : path) : Prop := ¬ p `prefix_of` q ∧ ¬ q `prefix_of` p.

(** No component of the relative path is on the denylist. *)
Definition kept (q : path) : bool := forallb (λ n, negb (shouldSkipFile n)) q.

(** The first failure among the three top-level steps of copyDir. *)
Definition copyDir_toplevel (src dst : path) (h : Host) : error :=
  match os_Stat src h with
  | inl err => Some err
  | inr srcInfo =>
    match os_MkdirAll dst (Mode srcInfo) h with
    | (Some err, _) => Some err
    | (None, h1) =>
      match os_ReadDir src h1 with
      | inl err => Some err
      | inr _ => None
      end
    end
  end.

(** Fuel that is enough for any copy between paths that lie apart: one more
    than the length of the longest path of the file system. *)
Definition enough_fuel (h : Host) : nat :=
  S (S (max_list (length <$> (map_to_list (fs h)).*1))).

(** Below [src] the file system is less than [n] levels deep. *)
Definition bounded (src : path) (n : nat) (h : Host) : Prop :=
  ∀ k, src `prefix_of` k → is_Some (fs h !! k) → length k < length src + n.

Definition copy_warning (r : LogRecord) : Prop :=
  r = mkLog LevelWarn "Failed to copy directory"
  ∨ r = mkLog LevelWarn "Failed to copy file".

(** The options this package offers. *)
Inductive package_option : ChromeOption → Prop :=
  | option_WithProfile dir : package_option (WithProfile dir)
  | option_WithUserDataDir dir : package_option (WithUserDataDir dir)
  | option_WithHeadless : package_option WithHeadless
  | option_WithChromeProfile profile : package_option (WithChromeProfile profile)
  | option_WithCopiedProfile fuel profile :
      package_option (WithCopiedProfile fuel profile).

(** The same without the one that copies a profile. *)
Inductive plain_option : ChromeOption → Prop :=
  | plain_WithProfile dir : plain_option (WithProfile dir)
  | plain_WithUserDataDir dir : plain_option (WithUserDataDir dir)
  | plain_WithHeadless : plain_option WithHeadless
  | plain_WithChromeProfile profile : plain_option (WithChromeProfile profile).

(** Every node of [h] is still there in [h'], of the same kind and with the
    same permissions; only the content of a file may differ. *)
Definition stays (h h' : Host) : Prop :=
  ∀ k, match fs h !! k with
       | Some (Dir m) => fs h' !! k = Some (Dir m)
       | Some (File m _) => ∃ d, fs h' !! k = Some (File m d)
       | None => True
       end.

Definition same_env (h h' : Host) : Prop :=
  GOOS h' = GOOS h ∧ home h' = home h ∧ LOCALAPPDATA h' = LOCALAPPDATA h
  ∧ tempDir h' = tempDir h ∧ rand h' = rand h.

(** What a copy into [dst] may have done to the host: the environment is as
    before, the log has grown by copy warnings only, and a path keeps its
    node unless it is a missing prefix of [dst] or lies below [dst] along
    names none of which is on the denylist. *)
Definition copied (dst : path) (h h' : Host) : Prop :=
  same_env h h'
  ∧ (∃ ws, log h' = log h ++ ws ∧ Forall copy_warning ws)
  ∧ ∀ k, (k `prefix_of` dst → is_Some (fs h !! k)) →
         (∀ q, k = dst ++ q → q = [] ∨ kept q = false) →
         fs h' !! k = fs h !! k.

Section SessionVocabulary.
Context {D : Driver}.

(** Between two calls nobody holds the lock. *)
Definition mu_free (s : State) : Prop := mu (view s) = unlocked.

(** The lock as Navigate holds it around its loop. *)
Definition read_locked (s : State) : Prop := mu (view s) = mkRWMutex 1 false.

Definition set_browser (b : Browser) (s : State) : State :=
  mkState (view s) b (host s) (goroutines s).

(** A property of the state that a call keeps whenever it returns. *)
Definition preserves (P : State → Prop) {A} (m : M A) : Prop :=
  ∀ s a s', P s → m s = (Ret a, s') → P s'.

(** The identifiers, among [ids] taken in order, whose element the page
    yields; the browser moves on with every driver call made on the way. *)
Fixpoint located_elements (ids : list string) (b : Browser) : list string :=
  match ids with
  | [] => []
  | elementID :: rest =>
    match page_Element ("#" +:+ elementID) b with
    | (inl _, b1) => located_elements rest b1
    | (inr el, b1) =>
      elementID :: located_elements rest (element_Property el "value" b1).2
    end
  end.

(** The action hands [elementID] to SetValue or to AddListener. *)
Definition passes (elementID : string) (a : action) : bool :=
  match a with
  | CallSetValue i _ => bool_decide (i = elementID)
  | CallAddListener i => bool_decide (i = elementID)
  | _ => false
  end.

(** Nothing in the session knows [elementID]. *)
Definition unknown (elementID : string) (s : State) : Prop :=
  mu_free s
  ∧ elements (view s) !! elementID = None
  ∧ listeners (view s) !! elementID = None
  ∧ Forall (λ g, watched g ≠ elementID) (goroutines s).

Definition stopChan_is_closed (s : State) : Prop :=
  stopChan_closed (view s) = true.

(** The identifiers, among [ids] taken in order, whose value setupListener
    reads from the page. *)
Fixpoint fetched_elements (ids : list string) (b : Browser) : list string :=
  match ids with
  | [] => []
  | elementID :: rest =>
    match page_Element ("#" +:+ elementID) b with
    | (inl _, b1) => fetched_elements rest b1
    | (inr el, b1) =>
      match element_Property el "value" b1 with
      | (inl _, b2) => fetched_elements rest b2
      | (inr _, b2) => elementID :: fetched_elements rest b2
      end
    end
  end.

(** Both signals of the session, the context and the stop channel, are in
    state [b]. *)
Definition signals (b : bool) (s : State) : Prop :=
  ctx_done (view s) = b ∧ stopChan_closed (view s) = b.

(** The files on disk and the temporary directory the session owns. *)
Definition disk (f : FS) (t : option path) (s : State) : Prop :=
  fs (host s) = f ∧ view_tmpDir (view s) = t.

End SessionVocabulary.

(** GetCookie in the words of its description. *)
Definition cookie_matches (key domain : string) (c : NetworkCookie) : Prop :=
  CookieName c = key
  ∧ (CookieDomain c = domain ∨ CookieDomain c = "." +:+ domain
     ∨ domain = "" ∨ CookieDomain c = "").

Definition first_match (key domain : string) (cookies : list NetworkCookie)
    (v : string) : Prop :=
  (∃ pre c post, cookies = pre ++ c :: post
     ∧ Forall (λ c', ¬ cookie_matches key domain c') pre
     ∧ cookie_matches key domain c ∧ v = CookieValue c)
  ∨ (Forall (λ c', ¬ cookie_matches key domain c') cookies ∧ v = "").

(** * Properties *)

(** ** The profile store *)

Section ProfileFacts.

Implicit Types (h : Host) (p q k src dst : path).

Lemma prefix_snoc_inv (k p : path) (n : string) :
  k `prefix_of` p ++ [n] → k `prefix_of` p ∨ k = p ++ [n].
Proof.
  intros [t Ht]. destruct (decide (t = [])) as [->|Hne].
  - right. by rewrite app_nil_r in Ht.
  - left. destruct (exists_last Hne) as (t' & x & ->).
    rewrite app_assoc in Ht. apply app_inj_tail in Ht as [-> _].
    by exists t'.
Qed.

Lemma prefix_removelast (p : path) : removelast p `prefix_of` p.
Proof.
  destruct (decide (p = [])) as [->|Hne]; [done|].
  destruct (exists_last Hne) as (t & x & ->).
  rewrite removelast_last. by exists [x].
Qed.

(** *** Where the primitives write *)

Lemma os_Mkdir_effect p perm h r h' :
  os_Mkdir p perm h = (r, h') →
  same_env h h' ∧ log h' = log h
  ∧ (fs h' = fs h ∨ r = None ∧ fs h' = <[p := Dir perm]> (fs h)).
Proof.
  unfold os_Mkdir. intros H.
  destruct (fs h !! p); [inversion H; subst; split_and!; try done; auto|].
  destruct p as [|a p']; [inversion H; subst; split_and!; try done; auto|].
  destruct (fs h !! removelast (a :: p')) as [[m d|m]|];
    [inversion H; subst; split_and!; try done; auto| |inversion H; subst; split_and!; try done; auto].
  destruct (writable m); inversion H; subst; split_and!; try done; auto.
Qed.

Lemma os_Mkdir_frame p perm h r h' k :
  os_Mkdir p perm h = (r, h') → k ≠ p → fs h' !! k = fs h !! k.
Proof.
  intros H Hk. apply os_Mkdir_effect in H as (_ & _ & [->|[_ ->]]); [done|].
  by rewrite lookup_insert_ne.
Qed.

Lemma os_Mkdir_fresh p perm h r h' :
  os_Mkdir p perm h = (r, h') → is_Some (fs h !! p) → fs h' = fs h.
Proof.
  unfold os_Mkdir. intros H [x Hx]. rewrite Hx in H. by simplify_eq/=.
Qed.

(** MkdirAll only adds directories, at prefixes of its path that were
    missing. *)
Lemma os_MkdirAll_rec_frame n p perm h r h' k :
  os_MkdirAll_rec n p perm h = (r, h') →
  (k `prefix_of` p → is_Some (fs h !! k)) → fs h' !! k = fs h !! k.
Proof.
  revert p h r h'. induction n as [|n IH]; intros p h r h' H Hk; simpl in H.
  - destruct (fs h !! p) as [[]|] eqn:Ep; simplify_eq/=; try done.
    eapply os_Mkdir_frame; [done|]. intros ->.
    destruct Hk as [? ?]; [done|congruence].
  - destruct (fs h !! p) as [[]|] eqn:Ep; simplify_eq/=; try done.
    destruct (os_MkdirAll_rec n (removelast p) perm h) as [[e|] h1] eqn:E1;
      simplify_eq/=.
    + eapply IH; [done|]. intros Hp. apply Hk.
      etrans; [done|]. apply prefix_removelast.
    + assert (fs h1 !! k = fs h !! k) as <-.
      { eapply IH; [done|]. intros Hp. apply Hk.
        etrans; [done|]. apply prefix_removelast. }
      eapply os_Mkdir_frame; [done|]. intros ->.
      destruct Hk as [? ?]; [done|congruence].
Qed.

Lemma os_MkdirAll_frame p perm h r h' k :
  os_MkdirAll p perm h = (r, h') →
  (k `prefix_of` p → is_Some (fs h !! k)) → fs h' !! k = fs h !! k.
Proof. apply os_MkdirAll_rec_frame. Qed.

Lemma os_OpenFile_effect p perm h r h' :
  os_OpenFile_create_trunc p perm h = (r, h') →
  same_env h h' ∧ log h' = log h ∧ ∀ k, k ≠ p → fs h' !! k = fs h !! k.
Proof.
  unfold os_OpenFile_create_trunc. intros H.
  destruct (fs h !! p) as [[m d|m]|].
  - destruct (writable m); inversion H; subst; split_and!; try done.
    intros k Hk. unfold set_fs. cbn [fs]. by rewrite lookup_insert_ne.
  - inversion H; subst. done.
  - destruct p as [|a p']; [inversion H; subst; done|].
    destruct (fs h !! removelast (a :: p')) as [[m d|m]|];
      [inversion H; subst; done| |inversion H; subst; done].
    destruct (writable m); inversion H; subst; split_and!; try done.
    intros k Hk. unfold set_fs. cbn [fs]. by rewrite lookup_insert_ne.
Qed.

Lemma io_Copy_effect dstFile srcFile h r h' :
  io_Copy dstFile srcFile h = (r, h') →
  same_env h h' ∧ log h' = log h
  ∧ ∀ k, k ≠ file_path dstFile → fs h' !! k = fs h !! k.
Proof.
  unfold io_Copy. intros H.
  destruct (fs h !! file_path srcFile) as [[m d|m]|];
    [|inversion H; subst; done..].
  destruct (fs h !! file_path dstFile) as [[m' d'|m']|];
    [|inversion H; subst; done..].
  inversion H; subst. split_and!; try done.
  intros k Hk. unfold set_fs. cbn [fs]. by rewrite lookup_insert_ne.
Qed.

Lemma copyFile_effect src dst h r h' :
  copyFile src dst h = (r, h') →
  same_env h h' ∧ log h' = log h ∧ ∀ k, k ≠ dst → fs h' !! k = fs h !! k.
Proof.
  unfold copyFile. intros H.
  destruct (os_Open src h) as [err|srcFile]; [inversion H; subst; done|].
  destruct (File_Stat srcFile h) as [err|srcInfo]; [inversion H; subst; done|].
  destruct (os_OpenFile_create_trunc dst (Mode srcInfo) h) as [[err|dstFile] h1] eqn:E1.
  - apply os_OpenFile_effect in E1. by inversion H; subst.
  - assert (file_path dstFile = dst) as Hd.
    { unfold os_OpenFile_create_trunc in E1.
      repeat case_match; by inversion E1. }
    apply os_OpenFile_effect in E1 as ((?&?&?&?&?) & Hl1 & Hf1).
    apply io_Copy_effect in H as ((?&?&?&?&?) & Hl2 & Hf2). rewrite Hd in Hf2.
    unfold same_env. split_and!; try congruence.
    intros k Hk. rewrite Hf2, Hf1; done.
Qed.

Lemma copyFile_frame src dst h r h' k :
  copyFile src dst h = (r, h') → k ≠ dst → fs h' !! k = fs h !! k.
Proof. intros H Hk. apply copyFile_effect in H as (_ & _ & Hf). by apply Hf. Qed.

(** *** Where a copy writes *)

Lemma copied_refl dst h : copied dst h h.
Proof.
  split_and!; try done. exists []. by rewrite app_nil_r.
Qed.

Lemma copied_trans dst h h1 h2 :
  copied dst h h1 → copied dst h1 h2 → copied dst h h2.
Proof.
  intros ((?&?&?&?&?) & (ws1 & Hl1 & Hw1) & Hf1)
         ((?&?&?&?&?) & (ws2 & Hl2 & Hw2) & Hf2).
  unfold copied, same_env. split_and!; try congruence.
  - exists (ws1 ++ ws2). rewrite Hl2, Hl1, app_assoc. split; [done|].
    by apply Forall_app.
  - intros k Hk1 Hk2. rewrite <- (Hf1 k Hk1 Hk2). apply Hf2; [|done].
    intros Hp. rewrite (Hf1 k Hk1 Hk2). auto.
Qed.

Lemma copied_below dst n h h' :
  shouldSkipFile n = false → copied (dst ++ [n]) h h' → copied dst h h'.
Proof.
  intros Hn (He & Hl & Hf). split_and!; try done.
  intros k H1 H2. apply Hf.
  - intros [Hp| ->]%prefix_snoc_inv; [auto|].
    destruct (H2 [n] eq_refl) as [?|Hk]; [done|].
    simpl in Hk. by rewrite Hn in Hk.
  - intros q ->. destruct (H2 (n :: q)) as [?|Hk]; [by rewrite <- app_assoc|done|].
    simpl in Hk. rewrite Hn in Hk. by right.
Qed.

Lemma copied_warn dst h msg :
  copy_warning (mkLog LevelWarn msg) → copied dst h (slog_Warn msg h).
Proof.
  intros Hw. split_and!; try done. exists [mkLog LevelWarn msg]. split; [done|].
  by apply Forall_singleton.
Qed.

Lemma copied_of_frame dst h h' :
  same_env h h' → log h' = log h →
  (∀ k, (k `prefix_of` dst → is_Some (fs h !! k)) →
        (∀ q, k = dst ++ q → q = [] ∨ kept q = false) →
        fs h' !! k = fs h !! k) →
  copied dst h h'.
Proof.
  intros He Hl Hf. split_and!; try done. exists []. by rewrite app_nil_r.
Qed.

Lemma os_Mkdir_env p perm h r h' :
  os_Mkdir p perm h = (r, h') → same_env h h' ∧ log h' = log h.
Proof. intros H. apply os_Mkdir_effect in H as (? & ? & _). done. Qed.

Lemma os_MkdirAll_env p perm h r h' :
  os_MkdirAll p perm h = (r, h') → same_env h h' ∧ log h' = log h.
Proof.
  unfold os_MkdirAll. generalize (length p) as n. intros n. revert p h r h'.
  induction n as [|n IH]; intros p h r h' H; simpl in H.
  - destruct (fs h !! p) as [[]|]; simplify_eq/=; try done.
    by eapply os_Mkdir_env.
  - destruct (fs h !! p) as [[]|]; simplify_eq/=; try done.
    destruct (os_MkdirAll_rec n (removelast p) perm h) as [[e|] h1] eqn:E1;
      simplify_eq/=.
    + by eapply IH.
    + apply IH in E1 as [(?&?&?&?&?) ?]. apply os_Mkdir_env in H as [(?&?&?&?&?) ?].
      unfold same_env. split_and!; congruence.
Qed.

Lemma copyFile_env src dst h r h' :
  copyFile src dst h = (r, h') → same_env h h' ∧ log h' = log h.
Proof. intros H. apply copyFile_effect in H as (? & ? & _). done. Qed.

Lemma copied_MkdirAll dst perm h r h' :
  os_MkdirAll dst perm h = (r, h') → copied dst h h'.
Proof.
  intros H. destruct (os_MkdirAll_env _ _ _ _ _ H) as [He Hl].
  apply copied_of_frame; try done.
  intros k H1 _. by eapply os_MkdirAll_frame.
Qed.

Lemma copied_copyFile src dst n h r h' :
  shouldSkipFile n = false →
  copyFile src (dst ++ [n]) h = (r, h') → copied dst h h'.
Proof.
  intros Hn H. destruct (copyFile_env _ _ _ _ _ H) as [He Hl].
  apply copied_of_frame; try done.
  intros k _ H2. eapply copyFile_frame; [done|]. intros ->.
  destruct (H2 [n] eq_refl) as [?|Hk]; [done|].
  simpl in Hk. by rewrite Hn in Hk.
Qed.

Lemma copied_entries rec src dst entries h h' :
  (∀ src' dst' h1 r1 h1', rec src' dst' h1 = Some (r1, h1') → copied dst' h1 h1') →
  copyDir_entries rec src dst entries h = Some h' → copied dst h h'.
Proof.
  intros Hrec. revert h. induction entries as [|entry rest IH]; intros h H.
  - simpl in H. simplify_eq. apply copied_refl.
  - simpl in H. destruct (shouldSkipFile (Name entry)) eqn:Hs; [by apply IH|].
    destruct (IsDir entry).
    + destruct (rec _ _ h) as [[[err|] h1]|] eqn:E; [| |done].
      * apply Hrec, (copied_below _ _ _ _ Hs) in E.
        eapply copied_trans; [exact E|]. apply IH in H.
        eapply copied_trans; [|exact H]. apply copied_warn. by left.
      * apply Hrec, (copied_below _ _ _ _ Hs) in E.
        eapply copied_trans; [exact E|]. by apply IH.
    + destruct (copyFile _ _ h) as [[err|] h1] eqn:E.
      * apply (copied_copyFile _ _ _ _ _ _ Hs) in E.
        eapply copied_trans; [exact E|]. apply IH in H.
        eapply copied_trans; [|exact H]. apply copied_warn. by right.
      * apply (copied_copyFile _ _ _ _ _ _ Hs) in E.
        eapply copied_trans; [exact E|]. by apply IH.
Qed.

Lemma copied_copyDir fuel src dst h r h' :
  copyDir fuel src dst h = Some (r, h') → copied dst h h'.
Proof.
  revert src dst h r h'. induction fuel as [|fuel IH]; intros src dst h r h' H;
    [done|].
  simpl in H. destruct (os_Stat src h) as [err|srcInfo]; simplify_eq/=.
  { apply copied_refl. }
  destruct (os_MkdirAll dst (Mode srcInfo) h) as [[err|] h1] eqn:E1; simplify_eq/=.
  { by eapply copied_MkdirAll. }
  apply copied_MkdirAll in E1.
  destruct (os_ReadDir src h1) as [err|entries]; simplify_eq/=; [done|].
  destruct (copyDir_entries _ _ _ _ h1) as [h2|] eqn:E2; simplify_eq/=.
  eapply copied_trans; [exact E1|]. eapply copied_entries; [|exact E2].
  intros. by eapply IH.
Qed.

(** *** The copy returns *)

Lemma apart_snoc src dst n : apart src dst → apart (src ++ [n]) (dst ++ [n]).
Proof.
  intros [H1 H2]. split.
  - intros [Hp|Hp]%prefix_snoc_inv.
    + apply H1. etrans; [|exact Hp]. by apply prefix_app_r.
    + apply app_inj_tail in Hp as [-> _]. by apply H1.
  - intros [Hp|Hp]%prefix_snoc_inv.
    + apply H2. etrans; [|exact Hp]. by apply prefix_app_r.
    + apply app_inj_tail in Hp as [-> _]. by apply H1.
Qed.

(** A copy between paths that lie apart leaves the source as it is. *)
Lemma copied_source src dst h h' k :
  apart src dst → copied dst h h' → src `prefix_of` k → fs h' !! k = fs h !! k.
Proof.
  intros [H1 H2] (_ & _ & Hf) Hk. apply Hf.
  - intros Hp. destruct H1. by etrans.
  - intros q ->. exfalso.
    destruct (prefix_weak_total src dst (dst ++ q)); auto.
    by apply prefix_app_r.
Qed.

Lemma bounded_copied src dst n h h' :
  apart src dst → copied dst h h' → bounded src n h → bounded src n h'.
Proof.
  intros Ha Hc Hb k Hk Hs. apply Hb; [done|].
  by rewrite <- (copied_source src dst h h' k).
Qed.

Lemma bounded_snoc src x n h : bounded src (S n) h → bounded (src ++ [x]) n h.
Proof.
  intros Hb k Hk Hs. rewrite length_app. simpl.
  assert (length k < length src + S n); [|lia].
  apply Hb; [|done]. etrans; [|exact Hk]. by apply prefix_app_r.
Qed.

Lemma copyDir_entries_total rec src dst n entries h :
  apart src dst →
  (∀ src' dst' h1 r1 h1', rec src' dst' h1 = Some (r1, h1') → copied dst' h1 h1') →
  (∀ src' dst' h1, apart src' dst' → bounded src' n h1 → is_Some (rec src' dst' h1)) →
  bounded src (S n) h →
  is_Some (copyDir_entries rec src dst entries h).
Proof.
  intros Ha Hrec Htot. revert h.
  induction entries as [|entry rest IH]; intros h Hb; simpl; [done|].
  destruct (shouldSkipFile (Name entry)) eqn:Hs; [by apply IH|].
  destruct (IsDir entry).
  - destruct (Htot (filepath_Join src [Name entry]) (filepath_Join dst [Name entry]) h)
      as [[r1 h1] E].
    { by apply apart_snoc. }
    { by apply bounded_snoc. }
    rewrite E. apply Hrec, (copied_below _ _ _ _ Hs) in E.
    destruct r1; apply IH.
    + eapply (bounded_copied src dst); [done| |exact Hb].
      eapply copied_trans; [exact E|]. apply copied_warn. by left.
    + by eapply (bounded_copied src dst).
  - destruct (copyFile _ _ h) as [r1 h1] eqn:E.
    apply (copied_copyFile _ _ _ _ _ _ Hs) in E.
    destruct r1; apply IH.
    + eapply (bounded_copied src dst); [done| |exact Hb].
      eapply copied_trans; [exact E|]. apply copied_warn. by right.
    + by eapply (bounded_copied src dst).
Qed.

Lemma copyDir_total n src dst h :
  apart src dst → bounded src n h → is_Some (copyDir (S n) src dst h).
Proof.
  revert src dst h. induction n as [|n IH]; intros src dst h Ha Hb.
  - simpl. unfold os_Stat. destruct (fs h !! src) as [x|] eqn:Es; [|done].
    exfalso. assert (length src < length src + 0); [|lia].
    apply Hb; [done|]. by rewrite Es.
  - change (copyDir (S (S n)) src dst h) with
      (match os_Stat src h with
       | inl err => Some (Some err, h)
       | inr srcInfo =>
         match os_MkdirAll dst (Mode srcInfo) h with
         | (Some err, h) => Some (Some err, h)
         | (None, h) =>
           match os_ReadDir src h with
           | inl err => Some (Some err, h)
           | inr entries =>
             match copyDir_entries (copyDir (S n)) src dst entries h with
             | None => None
             | Some h => Some (None, h)
             end
           end
         end
       end).
    destruct (os_Stat src h) as [err|srcInfo]; [done|].
    destruct (os_MkdirAll dst (Mode srcInfo) h) as [[err|] h1] eqn:E1; [done|].
    apply copied_MkdirAll in E1.
    destruct (os_ReadDir src h1) as [err|entries]; [done|].
    destruct (copyDir_entries_total (copyDir (S n)) src dst n entries h1)
      as [h2 ->]; try done.
    + intros. by eapply copied_copyDir.
    + by eapply (bounded_copied src dst).
Qed.

Lemma bounded_enough src h : bounded src (S (max_list (length <$> (map_to_list (fs h)).*1))) h.
Proof.
  intros k _ [x Hx].
  assert (length k ≤ max_list (length <$> (map_to_list (fs h)).*1))%nat; [|lia].
  apply max_list_elem_of_le, list_elem_of_fmap. exists k. split; [done|].
  apply list_elem_of_fmap. exists (k, x). split; [done|].
  by apply elem_of_map_to_list.
Qed.

Lemma copyDir_enough_fuel src dst h :
  apart src dst → is_Some (copyDir (enough_fuel h) src dst h).
Proof. intros Ha. apply copyDir_total; [done|]. apply bounded_enough. Qed.

Lemma copyDir_result fuel src dst h r h' :
  copyDir fuel src dst h = Some (r, h') → r = copyDir_toplevel src dst h.
Proof.
  destruct fuel as [|fuel]; [done|]. simpl. unfold copyDir_toplevel.
  intros H. repeat case_match; simplify_eq/=; done.
Qed.

(** C7. CopyProfile returns an error exactly when one of its three top-level
    steps fails (the stat of the source, the creation of the destination, the
    listing of the source), and then that error.  What happens to the entries
    does not show in the result: an entry whose copy fails costs one warning
    in the log and the loop goes on with the next, and warnings are all the
    copy ever logs.  The call returns whenever source and destination lie
    apart. *)
Theorem C7_CopyProfile_error_iff_toplevel (profile : ChromeProfile)
    (destDir : path) (h : Host) :
  (∀ fuel r h', CopyProfile fuel profile destDir h = Some (r, h') →
     r = copyDir_toplevel (Path profile) destDir h
     ∧ ∃ ws, log h' = log h ++ ws ∧ Forall copy_warning ws)
  ∧ (∀ fuel entry rest h0 err h1,
       shouldSkipFile (Name entry) = false →
       (if IsDir entry
        then copyDir fuel (Path profile ++ [Name entry]) (destDir ++ [Name entry]) h0
             = Some (Some err, h1)
        else copyFile (Path profile ++ [Name entry]) (destDir ++ [Name entry]) h0
             = (Some err, h1)) →
       copyDir_entries (copyDir fuel) (Path profile) destDir (entry :: rest) h0
       = copyDir_entries (copyDir fuel) (Path profile) destDir rest
           (slog_Warn (if IsDir entry then "Failed to copy directory"
                       else "Failed to copy file") h1))
  ∧ (apart (Path profile) destDir →
     ∃ r h', CopyProfile (enough_fuel h) profile destDir h = Some (r, h')).
Proof.
  unfold CopyProfile. split_and!.
  - intros fuel r h' H. split; [by eapply copyDir_result|].
    by destruct (copied_copyDir _ _ _ _ _ _ H) as (_ & ? & _).
  - intros fuel entry rest h0 err h1 Hs H. simpl. rewrite Hs.
    unfold filepath_Join. destruct (IsDir entry); by rewrite H.
  - intros Ha. destruct (copyDir_enough_fuel _ _ h Ha) as [[r h'] E]. eauto.
Qed.

(** *** What the listing and the primitives yield *)

Lemma child_name_spec (p k : path) (n : string) :
  child_name p k = Some n ↔ k = p ++ [n].
Proof.
  revert k. induction p as [|a p IH]; intros k; simpl.
  - destruct k as [|b [|c k]]; split; intros H; by simplify_eq/=.
  - destruct k as [|b k]; [split; intros H; by simplify_eq/=|].
    destruct (decide (a = b)) as [->|Hne].
    + rewrite IH. split; intros H; by simplify_eq/=.
    + split; intros H; by simplify_eq/=.
Qed.

Lemma elem_of_children (p : path) (f : FS) (e : DirEntry) :
  e ∈ children p f ↔
  ∃ nd, f !! (p ++ [Name e]) = Some nd ∧ IsDir e = node_isDir nd.
Proof.
  unfold children. rewrite list_elem_of_omap. split.
  - intros ([k nd] & Hk%elem_of_map_to_list & He). simpl in He.
    destruct (child_name p k) as [n|] eqn:En; simplify_eq/=.
    apply child_name_spec in En as ->. eauto.
  - intros (nd & Hk & Hd). exists (p ++ [Name e], nd). split.
    + by apply elem_of_map_to_list.
    + simpl. rewrite (proj2 (child_name_spec p _ (Name e)) eq_refl). simpl.
      destruct e. simpl in *. by subst.
Qed.

Lemma elem_of_ReadDir p h entries e :
  os_ReadDir p h = inr entries →
  e ∈ entries ↔ ∃ nd, fs h !! (p ++ [Name e]) = Some nd ∧ IsDir e = node_isDir nd.
Proof.
  unfold os_ReadDir. intros H. repeat case_match; simplify_eq/=.
  rewrite merge_sort_Permutation. apply elem_of_children.
Qed.

Lemma os_Mkdir_ok p perm h h' :
  os_Mkdir p perm h = (None, h') → fs h' = <[p := Dir perm]> (fs h).
Proof.
  unfold os_Mkdir. intros H.
  destruct (fs h !! p); [by inversion H|].
  destruct p as [|a p']; [by inversion H|].
  destruct (fs h !! removelast (a :: p')) as [[m d|m]|]; [by inversion H| |by inversion H].
  destruct (writable m); by inversion H.
Qed.





Lemma copied_sibling dst n name h h1 k :
  copied (dst ++ [n]) h h1 → n ≠ name →
  k = dst ++ [name] ∨ (k = dst ∧ is_Some (fs h !! dst)) →
  fs h1 !! k = fs h !! k.
Proof.
  intros (_ & _ & Hf) Hne Hk. apply Hf.
  - intros Hp. destruct Hk as [->|[-> ?]]; [|done].
    apply prefix_snoc_inv in Hp as [Hp|Hp].
    + apply prefix_length in Hp. rewrite length_app in Hp. simpl in Hp. lia.
    + apply app_inj_tail in Hp as [_ ?]. congruence.
  - intros q Hq. exfalso. destruct Hk as [->|[-> ?]].
    + rewrite <- app_assoc in Hq. apply app_inv_head in Hq. simpl in Hq.
      congruence.
    + apply (f_equal length) in Hq. rewrite !length_app in Hq. simpl in Hq. lia.
Qed.


Lemma snoc_ne_self (p : path) (n : string) : p ≠ p ++ [n].
Proof.
  intros H. apply (f_equal length) in H. rewrite length_app in H. simpl in H. lia.
Qed.


(** *** The denylist *)







(** *** The registry *)

(** C8. ListChromeProfiles fails exactly when reading the registry file
    fails (the file is missing, is a directory or is not readable) or when
    the decoder rejects its content, and reports which.  Otherwise it returns
    one profile for every entry of the registry and nothing else: the name is
    the entry's, the directory is the key, the path is the user-data
    directory joined with the key.  No two profiles share a directory, and an
    empty registry gives the empty list. *)
Theorem C8_ListChromeProfiles_errors_and_entries `{Decoder} (h : Host) :
  let registry := filepath_Join (GetChromeUserDataDir h) ["Local State"] in
  ((∃ err, os_ReadFile registry h = inl err) ↔
     ¬ ∃ m data, fs h !! registry = Some (File m data) ∧ readable m = true)
  ∧ match os_ReadFile registry h with
    | inl err => ListChromeProfiles h = inl (ReadFileError err)
    | inr data =>
      match json_Unmarshal data with
      | inl err => ListChromeProfiles h = inl (UnmarshalError err)
      | inr localState =>
        ∃ profiles, ListChromeProfiles h = inr profiles
          ∧ length profiles = size (InfoCache localState)
          ∧ (∀ cp : ChromeProfile, cp ∈ profiles ↔
                  ∃ info, InfoCache localState !! Directory cp = Some info
                    ∧ ProfileName cp = InfoName info
                    ∧ Path cp = filepath_Join (GetChromeUserDataDir h) [Directory cp])
          ∧ NoDup (Directory <$> profiles)
          ∧ (InfoCache localState = ∅ → profiles = [])
      end
    end.
Proof.
  intros registry. split.
  - unfold os_ReadFile.
    destruct (fs h !! registry) as [[m data|m]|] eqn:E.
    + destruct (readable m) eqn:Er.
      * split; [by intros [? ?]|]. intros Hn. destruct Hn. eauto.
      * split; [|by eauto]. intros _ (m' & d' & Hf & Hr). simplify_eq. congruence.
    + split; [|by eauto]. by intros _ (m' & d' & Hf & Hr).
    + split; [|by eauto]. by intros _ (m' & d' & Hf & Hr).
  - unfold ListChromeProfiles. fold registry.
    destruct (os_ReadFile registry h) as [err|data]; [done|].
    destruct (json_Unmarshal data) as [err|localState]; [done|].
    eexists. split; [reflexivity|]. split_and!.
    + by rewrite length_fmap, length_map_to_list.
    + intros [n dir pth]. rewrite list_elem_of_fmap. simpl. split.
      * intros ([dir' info] & Heq & Hin). simpl in *. simplify_eq.
        apply elem_of_map_to_list in Hin. eauto.
      * intros (info & Hin & -> & ->). exists (dir, info). split; [done|].
        by apply elem_of_map_to_list.
    + rewrite <- list_fmap_compose.
      rewrite (list_fmap_ext _ fst (map_to_list (InfoCache localState)))
        by (by intros ? [? ?]).
      apply NoDup_fst_map_to_list.
    + intros ->. by rewrite map_to_list_empty.
Qed.

(** *** The copied profile *)

Lemma os_Mkdir_free p perm h h' :
  os_Mkdir p perm h = (None, h') → fs h !! p = None.
Proof.
  unfold os_Mkdir. intros H. destruct (fs h !! p); [by inversion H|done].
Qed.

Lemma os_MkdirTemp_try_effect names dir pattern h r h1 :
  os_MkdirTemp_try names dir pattern h = (r, h1) →
  GOOS h1 = GOOS h ∧ home h1 = home h ∧ LOCALAPPDATA h1 = LOCALAPPDATA h
  ∧ tempDir h1 = tempDir h ∧ log h1 = log h
  ∧ match r with
    | inl _ => fs h1 = fs h
    | inr tmp =>
      (∃ x, x ∈ names ∧ tmp = dir ++ [pattern +:+ x])
      ∧ fs h !! tmp = None ∧ fs h1 = <[tmp := Dir 448]> (fs h)
    end.
Proof.
  revert h. induction names as [|x names IH]; intros h H; simpl in H.
  - by inversion H; subst.
  - destruct (os_Mkdir (filepath_Join dir [pattern +:+ x]) 448 (set_rand names h))
      as [[e|] h2] eqn:E.
    + pose proof (os_Mkdir_effect _ _ _ _ _ E) as ((?&?&?&?&?) & Hl & [Hfs|[? _]]);
        [|done]. simpl in *.
      destruct e; try (inversion H; subst; split_and!; congruence).
      apply IH in H as (?&?&?&?&?&Hr).
      split_and!; try congruence.
      destruct r as [err|tmp].
      * congruence.
      * destruct Hr as ((x0 & Hx0 & ->) & Hnone & Hins).
        rewrite Hfs in Hnone, Hins. split_and!; try done.
        exists x0. split; [by right|done].
    + inversion H; subst.
      pose proof (os_Mkdir_effect _ _ _ _ _ E) as ((?&?&?&?&?) & Hl & _).
      pose proof (os_Mkdir_free _ _ _ _ E) as Hnone.
      apply os_Mkdir_ok in E. simpl in *. split_and!; try done.
      exists x. split; [left|done].
Qed.



(** ** Further properties of the profile store *)

Lemma stays_refl h : stays h h.
Proof. intros k. destruct (fs h !! k) as [[m d|m]|]; eauto. Qed.

Lemma stays_trans h h1 h2 : stays h h1 → stays h1 h2 → stays h h2.
Proof.
  intros H1 H2 k. specialize (H1 k). specialize (H2 k).
  destruct (fs h !! k) as [[m d|m]|]; [|by rewrite H1 in H2|done].
  destruct H1 as [d1 H1]. by rewrite H1 in H2.
Qed.

Lemma stays_fs h h' : fs h' = fs h → stays h h'.
Proof. intros Hfs k. rewrite Hfs. destruct (fs h !! k) as [[m d|m]|]; eauto. Qed.

Lemma stays_insert_new h h' p x :
  fs h !! p = None → fs h' = <[p := x]> (fs h) → stays h h'.
Proof.
  intros Hp Hfs k. rewrite Hfs. destruct (decide (k = p)) as [->|Hne].
  - by rewrite Hp.
  - rewrite lookup_insert_ne by done. destruct (fs h !! k) as [[m d|m]|]; eauto.
Qed.

Lemma stays_insert_file h h' p m d d' :
  fs h !! p = Some (File m d) → fs h' = <[p := File m d']> (fs h) → stays h h'.
Proof.
  intros Hp Hfs k. rewrite Hfs. destruct (decide (k = p)) as [->|Hne].
  - rewrite Hp, lookup_insert_eq. eauto.
  - rewrite lookup_insert_ne by done. destruct (fs h !! k) as [[m1 d1|m1]|]; eauto.
Qed.

Lemma os_Mkdir_stays p perm h r h' : os_Mkdir p perm h = (r, h') → stays h h'.
Proof.
  intros H. destruct r as [e|].
  - apply os_Mkdir_effect in H as (_ & _ & [?|[? _]]); [by apply stays_fs|done].
  - pose proof (os_Mkdir_free _ _ _ _ H). apply os_Mkdir_ok in H.
    by eapply stays_insert_new.
Qed.

Lemma os_MkdirAll_stays p perm h r h' : os_MkdirAll p perm h = (r, h') → stays h h'.
Proof.
  unfold os_MkdirAll. generalize (length p) as n. intros n. revert p h r h'.
  induction n as [|n IH]; intros p h r h' H; simpl in H.
  - destruct (fs h !! p) as [[]|]; simplify_eq/=; try apply stays_refl.
    by eapply os_Mkdir_stays.
  - destruct (fs h !! p) as [[]|]; simplify_eq/=; try apply stays_refl.
    destruct (os_MkdirAll_rec n (removelast p) perm h) as [[e|] h1] eqn:E1;
      simplify_eq/=.
    + by eapply IH.
    + eapply stays_trans; [by eapply IH|by eapply os_Mkdir_stays].
Qed.

Lemma os_OpenFile_stays p perm h r h' :
  os_OpenFile_create_trunc p perm h = (r, h') → stays h h'.
Proof.
  unfold os_OpenFile_create_trunc. intros H.
  destruct (fs h !! p) as [[m d|m]|] eqn:Ep.
  - destruct (writable m); inversion H; subst; [|apply stays_refl].
    by eapply stays_insert_file.
  - inversion H; subst. apply stays_refl.
  - destruct p as [|a p']; [inversion H; subst; apply stays_refl|].
    destruct (fs h !! removelast (a :: p')) as [[m d|m]|];
      [inversion H; subst; apply stays_refl| |inversion H; subst; apply stays_refl].
    destruct (writable m); inversion H; subst; [|apply stays_refl].
    by eapply stays_insert_new.
Qed.

Lemma io_Copy_stays dstFile srcFile h r h' :
  io_Copy dstFile srcFile h = (r, h') → stays h h'.
Proof.
  unfold io_Copy. intros H.
  destruct (fs h !! file_path srcFile) as [[m d|m]|];
    [|inversion H; subst; apply stays_refl..].
  destruct (fs h !! file_path dstFile) as [[m' d'|m']|] eqn:Ed;
    [|inversion H; subst; apply stays_refl..].
  inversion H; subst. by eapply stays_insert_file.
Qed.

Lemma copyFile_stays src dst h r h' : copyFile src dst h = (r, h') → stays h h'.
Proof.
  unfold copyFile. intros H.
  destruct (os_Open src h) as [err|srcFile]; [inversion H; subst; apply stays_refl|].
  destruct (File_Stat srcFile h) as [err|srcInfo];
    [inversion H; subst; apply stays_refl|].
  destruct (os_OpenFile_create_trunc dst (Mode srcInfo) h) as [[err|dstFile] h1] eqn:E1.
  - inversion H; subst. by eapply os_OpenFile_stays.
  - eapply stays_trans; [by eapply os_OpenFile_stays|by eapply io_Copy_stays].
Qed.

Lemma copyDir_entries_stays rec src dst entries h h' :
  (∀ src' dst' h1 r1 h1', rec src' dst' h1 = Some (r1, h1') → stays h1 h1') →
  copyDir_entries rec src dst entries h = Some h' → stays h h'.
Proof.
  intros Hrec. revert h. induction entries as [|entry rest IH]; intros h H.
  - simpl in H. simplify_eq. apply stays_refl.
  - simpl in H. destruct (shouldSkipFile (Name entry)); [by apply IH|].
    destruct (IsDir entry).
    + destruct (rec _ _ h) as [[[err|] h1]|] eqn:E; [| |done].
      * eapply stays_trans; [by eapply Hrec|].
        eapply stays_trans; [|by apply IH]. by apply stays_fs.
      * eapply stays_trans; [by eapply Hrec|]. by apply IH.
    + destruct (copyFile _ _ h) as [[err|] h1] eqn:E.
      * eapply stays_trans; [by eapply copyFile_stays|].
        eapply stays_trans; [|by apply IH]. by apply stays_fs.
      * eapply stays_trans; [by eapply copyFile_stays|]. by apply IH.
Qed.

Lemma copyDir_stays fuel src dst h r h' :
  copyDir fuel src dst h = Some (r, h') → stays h h'.
Proof.
  revert src dst h r h'. induction fuel as [|fuel IH]; intros src dst h r h' H;
    [done|].
  simpl in H. destruct (os_Stat src h) as [err|srcInfo]; simplify_eq/=.
  { apply stays_refl. }
  destruct (os_MkdirAll dst (Mode srcInfo) h) as [[err|] h1] eqn:E1; simplify_eq/=.
  { by eapply os_MkdirAll_stays. }
  apply os_MkdirAll_stays in E1.
  destruct (os_ReadDir src h1) as [err|entries]; simplify_eq/=; [done|].
  destruct (copyDir_entries _ _ _ _ h1) as [h2|] eqn:E2; simplify_eq/=.
  eapply stays_trans; [exact E1|]. eapply copyDir_entries_stays; [|exact E2].
  intros. by eapply IH.
Qed.

(** X7. CopyProfile never removes anything and never changes what a node is: in
    whatever state it leaves the disk, every directory that was there is
    there unchanged, and every file is still a file with the permissions it
    had; a file that existed in the destination keeps its own permissions,
    not the source's. *)
Theorem CopyProfile_never_removes (fuel : nat) (profile : ChromeProfile)
    (destDir : path) (h h' : Host) (r : error) :
  CopyProfile fuel profile destDir h = Some (r, h') →
  (∀ k m, fs h !! k = Some (Dir m) → fs h' !! k = Some (Dir m))
  ∧ (∀ k m d, fs h !! k = Some (File m d) → ∃ d', fs h' !! k = Some (File m d'))
  ∧ (∀ k, fs h' !! k = None → fs h !! k = None).
Proof.
  unfold CopyProfile. intros H%copyDir_stays. split_and!.
  - intros k m Hk. specialize (H k). by rewrite Hk in H.
  - intros k m d Hk. specialize (H k). by rewrite Hk in H.
  - intros k Hk. specialize (H k). destruct (fs h !! k) as [[m d|m]|]; [|congruence|done].
    destruct H as [d' H]. congruence.
Qed.

(** X8. Outside the destination directory CopyProfile changes nothing that
    exists: there it can only create ancestors of the destination that were
    missing.  In particular the source profile is left exactly as it was when
    source and destination lie apart.  The environment is not touched. *)
Theorem CopyProfile_outside_destination (fuel : nat) (profile : ChromeProfile)
    (destDir : path) (h h' : Host) (r : error) :
  CopyProfile fuel profile destDir h = Some (r, h') →
  (∀ k, ¬ destDir `prefix_of` k → is_Some (fs h !! k) → fs h' !! k = fs h !! k)
  ∧ (∀ k, ¬ destDir `prefix_of` k → ¬ k `prefix_of` destDir →
          fs h' !! k = fs h !! k)
  ∧ (apart (Path profile) destDir →
     ∀ k, Path profile `prefix_of` k → fs h' !! k = fs h !! k)
  ∧ same_env h h'.
Proof.
  unfold CopyProfile. intros H%copied_copyDir. split_and!.
  - intros k Hk Hs. destruct H as (_ & _ & Hf). apply Hf; [done|].
    intros q ->. destruct Hk. by apply prefix_app_r.
  - intros k Hk1 Hk2. destruct H as (_ & _ & Hf). apply Hf; [done|].
    intros q ->. destruct Hk1. by apply prefix_app_r.
  - intros Ha k Hk. by eapply copied_source.
  - by destruct H.
Qed.


Lemma os_MkdirAll_existing p perm h m :
  fs h !! p = Some (Dir m) → os_MkdirAll p perm h = (None, h).
Proof.
  intros Hp. unfold os_MkdirAll. destruct (length p); simpl; by rewrite Hp.
Qed.

Lemma copyFile_self p h m d :
  fs h !! p = Some (File m d) → readable m = true → writable m = true →
  ∃ h', copyFile p p h = (None, h') ∧ fs h' !! p = Some (File m "")
    ∧ ∀ k, k ≠ p → fs h' !! k = fs h !! k.
Proof.
  intros Hp Hr Hw.
  unfold copyFile, os_Open, File_Stat, os_Stat. rewrite Hp. cbn [node_perm].
  rewrite Hr. cbn [file_path]. rewrite Hp. cbn [Mode node_perm].
  unfold os_OpenFile_create_trunc. rewrite Hp, Hw.
  unfold io_Copy, set_fs. cbn [file_path fs]. rewrite lookup_insert_eq.
  eexists. split; [reflexivity|]. cbn [fs]. split.
  - by rewrite lookup_insert_eq.
  - intros k Hk. by rewrite !lookup_insert_ne.
Qed.

Lemma copyDir_entries_self rec src entries h h' name m d0 :
  (∀ src' dst' h1 r1 h1', rec src' dst' h1 = Some (r1, h1') → copied dst' h1 h1') →
  shouldSkipFile name = false → readable m = true → writable m = true →
  (∀ e, e ∈ entries → Name e = name → IsDir e = false) →
  fs h !! (src ++ [name]) = Some (File m d0) →
  d0 = "" ∨ mkDirEntry name false ∈ entries →
  copyDir_entries rec src src entries h = Some h' →
  fs h' !! (src ++ [name]) = Some (File m "").
Proof.
  intros Hrec Hs Hr Hw. revert h d0.
  induction entries as [|e rest IH]; intros h d0 Hfile Hsrc Hd H; simpl in H.
  { simplify_eq. destruct Hd as [->|Hin]; [done|]. by apply elem_of_nil in Hin. }
  assert (∀ e', e' ∈ rest → Name e' = name → IsDir e' = false) as Hfile'.
  { intros e' He'. apply Hfile. by right. }
  assert (Name e ≠ name → d0 = "" ∨ mkDirEntry name false ∈ rest) as Hd'.
  { intros Hne. destruct Hd as [?|Hin]; [by left|right].
    apply elem_of_cons in Hin as [<-|?]; [|done]. simpl in Hne. congruence. }
  destruct (shouldSkipFile (Name e)) eqn:Hse.
  { apply (IH h d0); try done. apply Hd'. congruence. }
  unfold filepath_Join in H.
  destruct (IsDir e) eqn:Hde.
  - assert (Name e ≠ name) as Hne.
    { intros Heq. rewrite (Hfile e) in Hde; [done|by left|done]. }
    assert (∀ h1 r1, rec (src ++ [Name e]) (src ++ [Name e]) h = Some (r1, h1) →
              ∀ h2, fs h2 = fs h1 → copyDir_entries rec src src rest h2 = Some h' →
              fs h' !! (src ++ [name]) = Some (File m "")) as Hgo.
    { intros h1 r1 E h2 Hfs H2. apply Hrec in E.
      apply (IH h2 d0); try done; [|by apply Hd'].
      rewrite Hfs, (copied_sibling src (Name e) name h h1); try done. by left. }
    destruct (rec _ _ h) as [[[err|] h1]|] eqn:E; [| |done].
    + by apply (Hgo h1 (Some err) eq_refl (slog_Warn "Failed to copy directory" h1)).
    + by apply (Hgo h1 None eq_refl h1).
  - destruct (decide (Name e = name)) as [Heq|Hne].
    + rewrite Heq in H.
      destruct (copyFile_self _ _ _ _ Hsrc Hr Hw) as (h1 & E & Hnew & _).
      rewrite E in H. apply (IH h1 ""); try done. by left.
    + assert (∀ h2, fs h2 = fs (copyFile (src ++ [Name e]) (src ++ [Name e]) h).2 →
                copyDir_entries rec src src rest h2 = Some h' →
                fs h' !! (src ++ [name]) = Some (File m "")) as Hgo.
      { intros h2 Hfs H2.
        destruct (copyFile (src ++ [Name e]) (src ++ [Name e]) h) as [r1 h1] eqn:E.
        simpl in Hfs. apply (IH h2 d0); try done; [|by apply Hd'].
        rewrite Hfs, (copyFile_frame _ _ _ _ _ _ E); [done|].
        intros [_ ?]%app_inj_tail. congruence. }
      destruct (copyFile _ _ h) as [[err|] h1] eqn:E; simpl in Hgo.
      * by apply (Hgo (slog_Warn "Failed to copy file" h1)).
      * by apply (Hgo h1).
Qed.

(** X10. CopyProfile of a profile onto its own directory succeeds and empties the
    files it was meant to copy: every file of the directory that can be read
    and written and is not on the denylist is truncated before its content
    is read, and is left with no content. *)
Theorem CopyProfile_onto_itself_truncates (fuel : nat) (profile : ChromeProfile)
    (h h' : Host) (name : string) (m : N) (d : string) :
  CopyProfile fuel profile (Path profile) h = Some (None, h') →
  fs h !! (Path profile ++ [name]) = Some (File m d) →
  readable m = true → writable m = true → shouldSkipFile name = false →
  fs h' !! (Path profile ++ [name]) = Some (File m "").
Proof.
  unfold CopyProfile. intros H Hfile Hr Hw Hs.
  destruct fuel as [|fuel]; [done|]. simpl in H. unfold os_Stat in H.
  destruct (fs h !! Path profile) as [[ms ds|ms]|] eqn:Esrc; [| |done].
  { simpl in H. unfold os_MkdirAll in H.
    destruct (length (Path profile)); simpl in H; rewrite Esrc in H; done. }
  simpl in H. rewrite (os_MkdirAll_existing _ _ _ _ Esrc) in H.
  destruct (os_ReadDir (Path profile) h) as [err|entries] eqn:E2; [done|].
  destruct (copyDir_entries _ _ _ _ h) as [h2|] eqn:E3; simplify_eq.
  eapply (copyDir_entries_self (copyDir fuel)); try done.
  - intros. by eapply copied_copyDir.
  - intros e He Hname. apply (elem_of_ReadDir _ _ _ e E2) in He as (nd & Hnd & ->).
    rewrite Hname, Hfile in Hnd. by simplify_eq.
  - right. apply (elem_of_ReadDir _ _ _ _ E2). simpl. eauto.
Qed.

(** X11. With a profile whose directory does not exist the copy-existing-profile
    option still creates the temporary directory and points the options at
    it: the copy fails at once with ENOENT, before the destination is
    created, so that the profile directory the browser is told to use does
    not exist; the log has the two errors. *)
Theorem WithCopiedProfile_missing_profile (fuel : nat) (profile : ChromeProfile)
    (o : chromeOptions) (h h1 : Host) (tmp : path) :
  fs h !! Path profile = None →
  os_MkdirTemp "rod-wrap-profile-" h = (inr tmp, h1) →
  Path profile ≠ tmp →
  fs h !! (tmp ++ ["Default"]) = None →
  ∃ h' rec,
    WithCopiedProfile (S fuel) profile o h
    = Some (mkOptions "Default" (Some tmp) (Some tmp) (headless o), h')
    ∧ fs h' !! tmp = Some (Dir 448)
    ∧ fs h' !! (tmp ++ ["Default"]) = None
    ∧ log h' = log h ++ [mkLog LevelInfo "Copying profile";
                         mkLog LevelError "Failed to copy profile";
                         rec;
                         mkLog LevelError "Failed to read copied profile dir"]
    ∧ (rec = mkLog LevelWarn "Failed to copy Local State"
       ∨ rec = mkLog LevelInfo "Copied Local State file").
Proof.
  intros Hmiss E Hne Hfree. unfold WithCopiedProfile. rewrite E.
  apply os_MkdirTemp_try_effect in E as (_ & _ & _ & _ & Hl & _ & _ & Hins).
  unfold CopyProfile. cbn [copyDir]. unfold os_Stat. cbn [fs slog_Info slog].
  rewrite Hins, lookup_insert_ne, Hmiss by done.
  set (h2 := slog_Error "Failed to copy profile" (slog_Info "Copying profile" h1)).
  destruct (copyFile (filepath_Join (GetChromeUserDataDir h2) ["Local State"])
              (filepath_Join tmp ["Local State"]) h2) as [cr h3] eqn:Ef.
  pose proof (copyFile_effect _ _ _ _ _ Ef) as (_ & Hl3 & Hf3).
  assert (fs h3 !! tmp = Some (Dir 448)) as Htmp.
  { rewrite Hf3 by apply snoc_ne_self. unfold h2. cbn [fs slog_Error slog_Info slog].
    by rewrite Hins, lookup_insert_eq. }
  assert (fs h3 !! (tmp ++ ["Default"]) = None) as Hdef.
  { rewrite Hf3 by (intros [_ ?]%app_inj_tail; done).
    unfold h2. cbn [fs slog_Error slog_Info slog].
    rewrite Hins, lookup_insert_ne by apply snoc_ne_self. done. }
  assert (log h3 = log h ++ [mkLog LevelInfo "Copying profile";
                             mkLog LevelError "Failed to copy profile"]) as Hlog.
  { rewrite Hl3. unfold h2. cbn [log slog_Error slog_Info slog].
    by rewrite Hl, <- app_assoc. }
  destruct cr as [err|]; eexists _, _; (split; [reflexivity|]);
    unfold os_ReadDir, filepath_Join, slog_Warn, slog_Info, slog_Error, slog;
    cbn [fs log]; rewrite Hdef; cbn [fs log];
    rewrite Hlog, <- !app_assoc; split_and!; eauto.
Qed.

(** X12. The options built from a listed profile point at that profile: the
    user-data directory joined with the profile directory is the profile's
    path; the temporary directory and the headless flag are not touched. *)
Theorem WithChromeProfile_of_listed `{Decoder} (h : Host)
    (profiles : list ChromeProfile) (cp : ChromeProfile) (o : chromeOptions) :
  ListChromeProfiles h = inr profiles →
  cp ∈ profiles →
  ∃ o' udd, WithChromeProfile cp o h = Some (o', h)
    ∧ userDataDir o' = Some udd
    ∧ filepath_Join udd [profileDir o'] = Path cp
    ∧ tmpDir o' = tmpDir o ∧ headless o' = headless o.
Proof.
  unfold ListChromeProfiles. intros Hl Hin.
  destruct (os_ReadFile _ h) as [err|data]; [done|].
  destruct (json_Unmarshal data) as [err|localState]; [done|].
  injection Hl as <-. apply list_elem_of_fmap in Hin as ([dir info] & -> & _).
  eexists _, _. split; [reflexivity|]. done.
Qed.

Lemma apply_options_app (opts1 opts2 : list ChromeOption) (o : chromeOptions) h :
  apply_options (opts1 ++ opts2) o h
  = match apply_options opts1 o h with
    | Some (o1, h1) => apply_options opts2 o1 h1
    | None => None
    end.
Proof.
  revert o h. induction opts1 as [|opt opts1 IH]; intros o h; simpl; [done|].
  destruct (opt o h) as [[o1 h1]|]; [apply IH|done].
Qed.

(** X13. No option of the package ever switches headless mode off, and only the
    option that copies a profile touches the host or the temporary directory
    the options own: a list of the other options always applies, leaves the
    host as it is and keeps the temporary directory an earlier option
    created, even where it redirects the browser to another user-data
    directory. *)
Theorem launch_options_invariants (opts : list ChromeOption) (o : chromeOptions)
    (h : Host) :
  (Forall package_option opts →
   ∀ o' h', apply_options opts o h = Some (o', h') →
            headless o = true → headless o' = true)
  ∧ (Forall plain_option opts →
     ∃ o', apply_options opts o h = Some (o', h) ∧ tmpDir o' = tmpDir o).
Proof.
  split.
  - intros Hopts. revert o h.
    induction Hopts as [|opt opts Hopt _ IH]; intros o h o' h' H Hh; simpl in H.
    + by simplify_eq.
    + destruct (opt o h) as [[o1 h1]|] eqn:E; [|done].
      apply (IH _ _ _ _ H).
      destruct Hopt; try (inversion E; subst; done).
      unfold WithCopiedProfile in E.
      destruct (os_MkdirTemp _ h) as [[?|?] ?]; [by inversion E; subst|].
      destruct (CopyProfile _ _ _ _) as [[r h2]|]; [|done].
      by inversion E; subst.
  - intros Hopts. revert o.
    induction Hopts as [|opt opts Hopt _ IH]; intros o; simpl.
    + by eexists.
    + destruct Hopt; simpl;
        match goal with |- context [apply_options opts ?o1 h] =>
          destruct (IH o1) as (o' & -> & Ht) end; by eexists.
Qed.

(** *** The whole tree *)

Lemma snoc_prefix_snoc (p : path) (n n' : string) :
  p ++ [n] `prefix_of` p ++ [n'] → n = n'.
Proof.
  intros [Hp|Hp]%prefix_snoc_inv.
  - apply prefix_length in Hp. rewrite length_app in Hp. simpl in Hp. lia.
  - by apply app_inj_tail in Hp as [_ ?].
Qed.









End ProfileFacts.

(** ** The session *)

Ltac munfold :=
  unfold Navigate, GetValue, SetValue, AddListener, RemoveListener, Destroy,
    GetCookie, setupListener, pollElementValue_iter, page_MustWaitLoad,
    mu_Lock, mu_Unlock, mu_RLock, mu_RUnlock, store_element, cancel,
    close_stopChan, os_RemoveAll_M, go_pollElementValue, on_host, call,
    set_view, get_view, set_goroutines, panic, block, ret, bind in *.

Ltac destruct_state s :=
  let e := fresh "e" in let l := fresh "l" in let m := fresh "m" in
  let cd := fresh "cd" in let sc := fresh "sc" in let td := fresh "td" in
  let b := fresh "b" in let h := fresh "h" in let g := fresh "g" in
  destruct s as [[e l m cd sc td] b h g];
  unfold mu_free, read_locked in *; simpl in *; simplify_eq/=.

Section SessionFacts.
Context {D : Driver}.

Lemma GetValue_free (s : State) (elementID : string) :
  mu_free s →
  GetValue elementID s = (Ret (default "" (elements (view s) !! elementID)), s).
Proof. intros Hf. destruct_state s. reflexivity. Qed.

(** C1. After SetValue(id, v) a GetValue(id) returns v whatever the driver
    answers: SetValue always returns, the cache holds v for id as soon as it
    does, and a failure to locate the element or to drive its input adds one
    error record to the log and changes nothing else in the session. *)
Theorem C1_SetValue_then_GetValue (s : State) (elementID value : string) :
  mu_free s →
  ∃ s', SetValue elementID value s = (Ret tt, s')
    ∧ GetValue elementID s' = (Ret value, s')
    ∧ view s' = set_elements (<[elementID := value]> (elements (view s))) (view s)
    ∧ goroutines s' = goroutines s
    ∧ fs (host s') = fs (host s)
    ∧ (log (host s') = log (host s)
       ∨ log (host s') = log (host s) ++ [mkLog LevelError "SetValue: element not found"]
       ∨ log (host s') = log (host s) ++ [mkLog LevelError "SetValue: input failed"]).
Proof.
  intros Hf. destruct_state s.
  unfold SetValue, bind, call. simpl.
  destruct (page_Element ("#" +:+ elementID) b) as [[err|el] b1]; simpl.
  - eexists. split; [reflexivity|]. simpl.
    rewrite GetValue_free by reflexivity. simpl. rewrite lookup_insert_eq.
    repeat split; auto.
  - destruct (element_Input el value b1) as [[err|] b2]; simpl;
      (eexists; split; [reflexivity|]); simpl;
      rewrite GetValue_free by reflexivity; simpl; rewrite lookup_insert_eq;
      repeat split; auto.
Qed.

(** *** Invariants along a run *)

Lemma preserves_bind (P : State → Prop) {A B} (m : M A) (k : A → M B) :
  preserves P m → (∀ a, preserves P (k a)) → preserves P (bind m k).
Proof.
  intros Hm Hk s b s' HP. unfold bind.
  destruct (m s) as [[a| |] s1] eqn:E; try discriminate.
  intros Hr. eapply Hk; [|exact Hr]. eapply Hm; eauto.
Qed.

Lemma preserves_range (P : State → Prop) (ids : list string) :
  (∀ id, id ∈ ids → preserves P (setupListener id)) →
  preserves P (range_setupListener ids).
Proof.
  induction ids as [|id ids IH]; intros H.
  - intros s a s' HP [= _ <-]. done.
  - simpl. apply preserves_bind.
    + apply H. left.
    + intros _. apply IH. intros ? ?. apply H. by right.
Qed.

Lemma preserves_run (P : State → Prop) (acts : list action) :
  (∀ a, a ∈ acts → preserves P (step a)) → preserves P (run acts).
Proof.
  induction acts as [|a acts IH]; intros H.
  - intros s ? s' HP [= _ <-]. done.
  - simpl. apply preserves_bind.
    + apply H. left.
    + intros _. apply IH. intros ? ?. apply H. by right.
Qed.

Ltac preserves_prim :=
  let s := fresh "s" in
  unfold preserves; intros s ? ? ? ?;
  destruct s as [[? ? ? ? ? ?] ? ? ?];
  munfold; simpl in *; repeat case_match; simplify_eq/=; done.

Ltac preserves_tac :=
  repeat first
    [ match goal with
      | |- preserves _ (bind get_view (λ _, set_view _)) => preserves_prim
      | |- preserves _ (bind _ _) => apply preserves_bind; [|intros ?]
      | |- preserves _ (match ?x with _ => _ end) => destruct x
      end
    | preserves_prim ].

(** Under the read lock setupListener either leaves the session object alone
    or parks: its only write needs the write lock. *)
Lemma range_setupListener_read_locked (ids : list string) (s s' : State) :
  read_locked s →
  range_setupListener ids s = (Ret tt, s') →
  view s' = view s
  ∧ goroutines s' = goroutines s
        ++ ((λ i, mkGoroutine i true) <$> located_elements ids (browser s))
  ∧ fs (host s') = fs (host s).
Proof.
  revert s. induction ids as [|id ids IH]; intros s Hl H.
  - simpl in H. injection H as <-. simpl. by rewrite app_nil_r.
  - simpl in H. unfold bind at 1 in H.
    destruct (setupListener id s) as [[[]| |] s1] eqn:E; try discriminate.
    destruct_state s. munfold. simpl in E.
    destruct (page_Element ("#" +:+ id) b) as [[err|el] b1] eqn:E1; simpl in E.
    + simplify_eq/=. apply IH in H; [|reflexivity]. simpl in H.
      exact H.
    + destruct (element_Property el "value" b1) as [[err|v] b2] eqn:E2;
        simpl in E; simplify_eq/=.
      apply IH in H; [|reflexivity]. simpl in H.
      destruct H as (-> & -> & ->). by rewrite <- app_assoc.
Qed.


Lemma range_setupListener_parks (ids : list string) (s : State) :
  read_locked s →
  fetched_elements ids (browser s) ≠ [] →
  (range_setupListener ids s).1 = Blocked.
Proof.
  revert s. induction ids as [|id ids IH]; intros s Hl Hf; [done|].
  simpl in *. unfold bind at 1.
  destruct_state s. munfold. simpl.
  destruct (page_Element ("#" +:+ id) b) as [[err|el] b1]; simpl.
  - by apply IH.
  - destruct (element_Property el "value" b1) as [[err|v] b2]; simpl; [|done].
    by apply IH.
Qed.

Lemma Navigate_eq (s : State) (url : string) :
  mu_free s →
  Navigate url s =
  let c0 := set_elements ∅ (view s) in
  let h0 := slog_Info "Navigate" (host s) in
  match page_Navigate url (browser s) with
  | (Some _, b1) =>
    (Ret tt, mkState c0 b1 (slog_Error "Navigate failed" h0) (goroutines s))
  | (None, b1) =>
    match page_WaitLoad b1 with
    | (Some _, b2) => (Panic "MustWaitLoad", mkState c0 b2 h0 (goroutines s))
    | (None, b2) =>
      bind (range_setupListener (map_to_list (listeners (view s))).*1)
           (λ _, mu_RUnlock)
           (mkState (set_mu (mkRWMutex 1 false) c0) b2 h0 (goroutines s))
    end
  end.
Proof.
  intros Hf. destruct_state s. unfold Navigate.
  unfold bind at 1. simpl. unfold bind at 1. simpl. unfold bind at 1. simpl.
  unfold bind at 1. simpl. unfold bind at 1, call at 1. simpl.
  destruct (page_Navigate url b) as [[err|] b1]; simpl; [done|].
  unfold bind at 1, page_MustWaitLoad, bind at 1, call. simpl.
  destruct (page_WaitLoad b1) as [[err|] b2]; simpl; done.
Qed.

(** Navigate with a watched element whose value the new page yields never
    returns: setupListener asks for the write lock while Navigate holds the
    read lock. *)
Lemma Navigate_parks_on_fetch (s : State) (url : string) (b1 b2 : Browser) :
  mu_free s →
  page_Navigate url (browser s) = (None, b1) →
  page_WaitLoad b1 = (None, b2) →
  fetched_elements (map_to_list (listeners (view s))).*1 b2 ≠ [] →
  (Navigate url s).1 = Blocked.
Proof.
  intros Hf E1 E2 Hne. rewrite Navigate_eq by done. simpl. rewrite E1, E2.
  unfold bind.
  match goal with |- context [range_setupListener ?ids ?s0] =>
    pose proof (range_setupListener_parks ids s0 eq_refl Hne) as Hp;
    destruct (range_setupListener ids s0) as [[[]| |] s1] end;
    simpl in Hp; done.
Qed.

Lemma located_elements_subset (ids : list string) (b : Browser) (i : string) :
  i ∈ located_elements ids b → i ∈ ids.
Proof.
  revert b. induction ids as [|id ids IH]; intros b; simpl; [done|].
  destruct (page_Element ("#" +:+ id) b) as [[err|el] b1].
  - intros ?. right. eauto.
  - intros [->|?]%elem_of_cons; [left|right; eauto].
Qed.

Lemma Navigate_returns (s s' : State) (url : string) :
  mu_free s →
  Navigate url s = (Ret tt, s') →
  view s' = set_elements ∅ (view s)
  ∧ fs (host s') = fs (host s)
  ∧ match page_Navigate url (browser s) with
    | (Some _, _) =>
      goroutines s' = goroutines s
      ∧ log (host s') = log (host s)
          ++ [mkLog LevelInfo "Navigate"; mkLog LevelError "Navigate failed"]
    | (None, b1) =>
      goroutines s' = goroutines s
        ++ ((λ i, mkGoroutine i true)
              <$> located_elements (map_to_list (listeners (view s))).*1
                                   (page_WaitLoad b1).2)
    end.
Proof.
  intros Hf. rewrite Navigate_eq by done. simpl.
  destruct (page_Navigate url (browser s)) as [[err|] b1] eqn:E1.
  - intros [= <-]. simpl. by rewrite <- app_assoc.
  - destruct (page_WaitLoad b1) as [[err|] b2] eqn:E2; [done|].
    unfold bind.
    match goal with |- context [range_setupListener ?ids ?s0] =>
      pose proof (range_setupListener_read_locked ids s0) as Hr;
      destruct (range_setupListener ids s0) as [[[]| |] s1] end; [|done..].
    specialize (Hr s1 eq_refl eq_refl). simpl in Hr.
    destruct Hr as (Hv & Hg & Hfs).
    destruct s1 as [c1 b3 h1 g1]. simpl in *. subst c1 g1.
    destruct_state s. unfold mu_RUnlock, bind, get_view, set_view. simpl.
    by intros [= <-].
Qed.



(** *** The watcher loop *)

Lemma tick_watched (s : State) (elementID : string) :
  mu_free s →
  is_Some (listeners (view s) !! elementID) →
  pollElementValue_iter recv_ticker_C elementID s =
  match page_Element ("#" +:+ elementID) (browser s) with
  | (inl _, b1) => (Ret LoopContinue, set_browser b1 s)
  | (inr el, b1) =>
    match element_Property el "value" b1 with
    | (inl _, b2) => (Ret LoopContinue, set_browser b2 s)
    | (inr prop, b2) =>
      (Ret LoopContinue,
       mkState (set_elements (<[elementID := prop]> (elements (view s))) (view s))
               b2 (host s) (goroutines s))
    end
  end.
Proof.
  intros Hf Hw. destruct_state s. munfold. simpl.
  rewrite bool_decide_eq_true_2 by done. simpl.
  destruct (page_Element ("#" +:+ elementID) b) as [[err|el] b1]; simpl; [done|].
  destruct (element_Property el "value" b1) as [[err|v] b2]; simpl; done.
Qed.



(** What one pass through the loop may do to the session. *)
Lemma pollElementValue_iter_effect (sel : select_case) (i : string) (s s' : State)
    (ctl : loop_ctl) :
  mu_free s →
  pollElementValue_iter sel i s = (Ret ctl, s') →
  goroutines s' = goroutines s
  ∧ host s' = host s
  ∧ (view s' = view s
     ∨ ∃ v, view s' = set_elements (<[i := v]> (elements (view s))) (view s)).
Proof.
  intros Hf H. destruct sel.
  - destruct_state s. munfold. simpl in H. destruct cd; simplify_eq/=. auto.
  - destruct (listeners (view s) !! i) as [w|] eqn:El.
    + rewrite tick_watched in H by (rewrite ?El; done).
      repeat case_match; simplify_eq/=; eauto.
    + destruct_state s. munfold. simpl in H.
      rewrite bool_decide_eq_false_2 in H; [simplify_eq/=; auto|].
      rewrite El. by intros [? ?].
Qed.

(** *** What a run cannot change *)

Lemma setupListener_unknown (elementID i : string) :
  i ≠ elementID → preserves (unknown elementID) (setupListener i).
Proof.
  intros Hne s a s' (Hf & He & Hl & Hg) H. unfold unknown.
  destruct_state s. munfold. simpl in H.
  repeat case_match; simplify_eq/=; split_and!; try done;
    rewrite ?lookup_insert_ne by done; try done;
    apply Forall_app; split; try done; by apply Forall_singleton.
Qed.

Lemma step_unknown (elementID : string) (a : action) :
  passes elementID a = false → preserves (unknown elementID) (step a).
Proof.
  intros Hp s [] s' (Hf & He & Hl & Hg) H. unfold unknown.
  destruct a; simpl in H, Hp.
  - apply Navigate_returns in H as (Hv & _ & Hgs); [|done].
    unfold mu_free. rewrite Hv. simpl. split_and!; try done.
    destruct (page_Navigate url (browser s)) as [[err|] b1].
    + destruct Hgs as [-> _]. done.
    + rewrite Hgs. apply Forall_app. split; [done|].
      apply Forall_fmap, Forall_forall. intros i Hi%located_elements_subset.
      simpl. intros ->. apply list_elem_of_fmap in Hi as [[k w] [-> Hk]].
      apply elem_of_map_to_list in Hk. simpl in *. congruence.
  - unfold bind in H. rewrite GetValue_free in H by done.
    unfold ret in H. by simplify_eq/=.
  - apply bool_decide_eq_false in Hp.
    destruct_state s. munfold. simpl in H.
    repeat case_match; simplify_eq/=; split_and!; try done;
      by rewrite lookup_insert_ne.
  - destruct_state s. munfold. simpl in H.
    repeat case_match; simplify_eq/=; done.
  - apply bool_decide_eq_false in Hp. unfold AddListener in H.
    destruct_state s. unfold bind at 1 2 3 in H. simpl in H.
    eapply (setupListener_unknown _ _ Hp) in H; [exact H|].
    unfold unknown, mu_free. simpl. split_and!; try done.
    by rewrite lookup_insert_ne.
  - destruct_state s. munfold. simpl in H. simplify_eq/=.
    split_and!; try done.
    + rewrite lookup_delete_None. by right.
    + rewrite lookup_delete_None. by right.
  - destruct_state s. munfold. simpl in H.
    repeat case_match; simplify_eq/=; done.
  - unfold poll_step in H.
    destruct (goroutines s !! k) as [[i [|]]|] eqn:Ek; [| by simplify_eq/= ..].
    assert (i ≠ elementID) as Hi.
    { eapply Forall_lookup_1 in Hg; [|exact Ek]. done. }
    unfold bind in H.
    destruct (pollElementValue_iter sel i s) as [[ctl| |] s1] eqn:E; [|done..].
    apply pollElementValue_iter_effect in E as (Hg1 & Hh1 & Hv1); [|done].
    assert (unknown elementID s1) as (Hf1 & He1 & Hl1 & Hgs1).
    { unfold unknown, mu_free in *. rewrite Hg1.
      destruct Hv1 as [->|[v ->]]; simpl; split_and!; try done.
      by rewrite lookup_insert_ne. }
    destruct ctl; unfold ret, set_goroutines in H; simplify_eq/=.
    + done.
    + unfold mu_free in *. simpl. split_and!; try done.
      by apply Forall_insert.
Qed.

(** C4. GetValue yields the empty string for an identifier without a cache
    entry.  That is the case of every identifier which, since the session was
    created, was never handed to SetValue or AddListener, whatever else was
    called and whatever the watchers did meanwhile; and of any identifier
    right after RemoveListener, which takes it out of the watch set and of
    the cache under the write lock, and which parks without touching either
    while the lock is held. *)
Theorem C4_GetValue_absent (elementID : string) :
  (∀ s, mu_free s → elements (view s) !! elementID = None →
        GetValue elementID s = (Ret "", s))
  ∧ (∀ opts h s0 acts s,
       NewChromeWebView opts h = Some (Ret s0) →
       Forall (λ a, passes elementID a = false) acts →
       run acts s0 = (Ret tt, s) →
       GetValue elementID s = (Ret "", s))
  ∧ (∀ s, mu_free s →
       ∃ s', RemoveListener elementID s = (Ret tt, s')
         ∧ listeners (view s') = delete elementID (listeners (view s))
         ∧ elements (view s') = delete elementID (elements (view s))
         ∧ mu_free s'
         ∧ GetValue elementID s' = (Ret "", s'))
  ∧ (∀ s, mu (view s) ≠ unlocked → RemoveListener elementID s = (Blocked, s)).
Proof.
  split_and!.
  - intros s Hf He. rewrite GetValue_free by done. by rewrite He.
  - intros opts h s0 acts s Hnew Hacts Hrun.
    assert (unknown elementID s0) as H0.
    { unfold NewChromeWebView in Hnew. repeat case_match; simplify_eq/=;
        unfold unknown, mu_free; simpl; split_and!; try done; constructor. }
    assert (unknown elementID s) as (Hf & He & _).
    { eapply (preserves_run (unknown elementID) acts); [|exact H0|exact Hrun].
      intros a Ha. apply step_unknown.
      rewrite Forall_forall in Hacts. by apply Hacts. }
    rewrite GetValue_free by done. by rewrite He.
  - intros s Hf. destruct_state s. munfold. simpl.
    eexists. split; [reflexivity|]. simpl. split_and!; try done.
    by rewrite lookup_delete_eq.
  - intros s Hm. destruct s as [[e l [r w] cd sc td] b h g]. munfold. simpl in *.
    destruct r, w; simpl; done.
Qed.

Lemma pollElementValue_iter_stopChan (sel : select_case) (i : string)
    (s s' : State) (ctl : loop_ctl) :
  pollElementValue_iter sel i s = (Ret ctl, s') →
  stopChan_closed (view s') = stopChan_closed (view s).
Proof.
  intros H. destruct s as [[e l [r w] cd sc td] b h g]. munfold. simpl in H.
  destruct sel.
  - destruct cd; by simplify_eq/=.
  - destruct w; simpl in H; [done|].
    destruct (bool_decide (is_Some (l !! i))); simpl in H; [|by simplify_eq/=].
    destruct (page_Element ("#" +:+ i) b) as [[err|el] b1]; simpl in H;
      [by simplify_eq/=|].
    destruct (element_Property el "value" b1) as [[err|v] b2]; simpl in H;
      [by simplify_eq/=|].
    destruct r; simpl in H; by simplify_eq/=.
Qed.

Lemma step_closed (a : action) : preserves stopChan_is_closed (step a).
Proof.
  assert (∀ ids, preserves stopChan_is_closed (range_setupListener ids)) as Hr.
  { intros ids. apply preserves_range. intros i _.
    unfold setupListener. preserves_tac. }
  destruct a as [url|i|i v|key dom|i|i| |k sel]; simpl.
  1-7: unfold Navigate, GetValue, SetValue, GetCookie, AddListener,
         RemoveListener, Destroy, setupListener, page_MustWaitLoad;
       preserves_tac; apply Hr.
  intros s [] s' Hc H. unfold poll_step in H.
  destruct (goroutines s !! k) as [[i [|]]|]; [|by simplify_eq/= ..].
  unfold bind in H.
  destruct (pollElementValue_iter sel i s) as [[ctl| |] s1] eqn:E; [|done..].
  apply pollElementValue_iter_stopChan in E.
  destruct ctl; unfold ret, set_goroutines in H; simplify_eq/=;
    unfold stopChan_is_closed in *; simpl; congruence.
Qed.

(** C10. Destroy is not idempotent.  Once Destroy has returned, the stop
    channel is closed and stays closed whatever is called next and whatever
    the watchers do; a further Destroy then panics on closing the closed
    channel, before it releases anything. *)
Theorem C10_Destroy_twice_panics (s s1 s2 : State) (acts : list action) :
  Destroy s = (Ret tt, s1) →
  run acts s1 = (Ret tt, s2) →
  ∃ s3, Destroy s2 = (Panic "close of closed channel", s3)
    ∧ browser s3 = browser s2 ∧ host s3 = host s2.
Proof.
  intros H1 H2.
  assert (stopChan_is_closed s1) as Hc1.
  { unfold stopChan_is_closed.
    destruct s as [[e l m cd sc td] b h g]. munfold. simpl in *.
    repeat case_match; simplify_eq/=; done. }
  assert (stopChan_is_closed s2) as Hc2.
  { eapply (preserves_run stopChan_is_closed acts); [|exact Hc1|exact H2].
    intros a _. apply step_closed. }
  unfold stopChan_is_closed in Hc2.
  destruct s2 as [[e l m cd sc td] b h g]. simpl in Hc2. subst sc.
  eexists. split; [reflexivity|]. done.
Qed.

(** *** Cookies *)

Lemma GetCookie_loop_first_match (cookies : list NetworkCookie) (key domain : string) :
  first_match key domain cookies (GetCookie_loop cookies key domain).
Proof.
  induction cookies as [|c cookies IH]; simpl.
  - right. split; [constructor|done].
  - destruct (bool_decide (CookieName c = key)
              && (bool_decide (CookieDomain c = domain)
                  || bool_decide (CookieDomain c = "." +:+ domain)
                  || bool_decide (domain = "")
                  || bool_decide (CookieDomain c = ""))) eqn:E.
    + left. exists [], c, cookies. split_and!; try done.
      unfold cookie_matches.
      apply andb_true_iff in E as [E1 E2]. apply bool_decide_eq_true in E1.
      split; [done|].
      repeat (apply orb_true_iff in E2 as [E2|E2]);
        apply bool_decide_eq_true in E2; auto.
    + assert (¬ cookie_matches key domain c) as Hn.
      { intros [H1 H2]. apply andb_false_iff in E as [E|E].
        - by apply bool_decide_eq_false in E.
        - repeat (apply orb_false_iff in E as [E ?]).
          repeat match goal with
                 | H : bool_decide _ = false |- _ =>
                   apply bool_decide_eq_false in H
                 end.
          destruct H2 as [?|[?|[?|?]]]; done. }
      destruct IH as [(pre & c' & post & -> & Hpre & Hc & Hv)|[Hall Hv]].
      * left. exists (c :: pre), c', post. split_and!; try done.
        by constructor.
      * right. split; [by constructor|done].
Qed.

(** C5. GetCookie returns the value of the first cookie, in the order the
    driver lists them, whose name is the key and whose domain is the requested
    one, or that with a dot before it, or is empty, or when the requested
    domain is empty; it returns the empty string when there is none and when
    the cookie query fails, which is logged.  The query is scoped to
    https://domain unless the domain is empty. *)
Theorem C5_GetCookie_first_match (s : State) (key domain : string) :
  let urls := if bool_decide (domain ≠ "") then ["https://" +:+ domain] else [] in
  ∃ v s', GetCookie key domain s = (Ret v, s')
    ∧ view s' = view s
    ∧ match (page_Cookies urls (browser s)).1 with
      | inl _ =>
        v = "" ∧ log (host s') = log (host s) ++ [mkLog LevelError "GetCookie failed"]
      | inr cookies => first_match key domain cookies v ∧ host s' = host s
      end.
Proof.
  intros urls. destruct s as [c b h g]. unfold GetCookie, bind, call. simpl.
  fold urls. destruct (page_Cookies urls b) as [[err|cookies] b1]; simpl.
  - by eexists _, _.
  - eexists _, _. split; [reflexivity|]. simpl. split; [done|]. split; [|done].
    apply GetCookie_loop_first_match.
Qed.

(** ** Further properties of the session *)

Lemma range_setupListener_no_fetch (ids : list string) (s : State) :
  read_locked s →
  fetched_elements ids (browser s) = [] →
  ∃ s', range_setupListener ids s = (Ret tt, s').
Proof.
  revert s. induction ids as [|id ids IH]; intros s Hl Hf; [by eexists|].
  simpl in *. unfold bind at 1.
  destruct_state s. munfold. simpl.
  destruct (page_Element ("#" +:+ id) b) as [[err|el] b1]; simpl.
  - by apply IH.
  - destruct (element_Property el "value" b1) as [[err|v] b2]; simpl; [|done].
    by apply IH.
Qed.

(** X1. Once the page is requested and loaded, Navigate returns exactly when the
    loaded page yields a value for none of the watched identifiers.  If it
    yields one, Navigate never returns: setupListener asks for the write lock
    to store the value while Navigate itself still holds the read lock. *)
Theorem Navigate_returns_or_parks (s : State) (url : string) (b1 b2 : Browser) :
  mu_free s →
  page_Navigate url (browser s) = (None, b1) →
  page_WaitLoad b1 = (None, b2) →
  let fetched := fetched_elements (map_to_list (listeners (view s))).*1 b2 in
  (fetched = [] → ∃ s', Navigate url s = (Ret tt, s'))
  ∧ (fetched ≠ [] → (Navigate url s).1 = Blocked).
Proof.
  intros Hf E1 E2 fetched. split.
  - intros Hn. rewrite Navigate_eq by done. simpl. rewrite E1, E2.
    unfold bind.
    match goal with |- context [range_setupListener ?ids ?s0] =>
      destruct (range_setupListener_no_fetch ids s0 eq_refl Hn) as [s1 Hr];
      pose proof (range_setupListener_read_locked ids s0 s1 eq_refl Hr)
        as (Hv & _ & _);
      rewrite Hr end.
    destruct s1 as [c1 b3 h1 g1]. simpl in Hv. subst c1.
    destruct_state s. unfold mu_RUnlock, bind, get_view, set_view. simpl.
    by eexists.
  - intros Hne. by apply (Navigate_parks_on_fetch s url b1 b2).
Qed.

(** X2. AddListener always returns.  It puts the identifier into the watch set
    whether or not the page has the element; it starts a sampling loop only
    when the element is located, and one more at every call, also for an
    identifier that is watched already; the cache receives the element's
    value when it can be read, and is left alone otherwise. *)
Theorem AddListener_effect (s : State) (elementID : string) :
  mu_free s →
  ∃ s', AddListener elementID s = (Ret tt, s')
    ∧ mu_free s'
    ∧ listeners (view s') = <[elementID := true]> (listeners (view s))
    ∧ match page_Element ("#" +:+ elementID) (browser s) with
      | (inl _, _) =>
        elements (view s') = elements (view s)
        ∧ goroutines s' = goroutines s
        ∧ log (host s') = log (host s)
            ++ [mkLog LevelError "setupListener: element not found"]
      | (inr el, b1) =>
        goroutines s' = goroutines s ++ [mkGoroutine elementID true]
        ∧ log (host s') = log (host s)
        ∧ match (element_Property el "value" b1).1 with
          | inl _ => elements (view s') = elements (view s)
          | inr v =>
            elements (view s') = <[elementID := v]> (elements (view s))
            ∧ GetValue elementID s' = (Ret v, s')
          end
      end.
Proof.
  intros Hf. destruct_state s. unfold AddListener. munfold. simpl.
  destruct (page_Element ("#" +:+ elementID) b) as [[err|el] b1]; simpl.
  - eexists. split; [reflexivity|]. simpl. done.
  - destruct (element_Property el "value" b1) as [[err|v] b2]; simpl.
    + eexists. split; [reflexivity|]. simpl. done.
    + eexists. split; [reflexivity|]. simpl. split_and!; try done.
      by rewrite lookup_insert_eq.
Qed.


Lemma pollElementValue_iter_signals (sel : select_case) (i : string)
    (s s' : State) (ctl : loop_ctl) (b : bool) :
  pollElementValue_iter sel i s = (Ret ctl, s') → signals b s → signals b s'.
Proof.
  intros H. destruct s as [[e l [r w] cd sc td] b0 h g]. munfold.
  unfold signals. simpl in *.
  destruct sel.
  - destruct cd; by simplify_eq/=.
  - destruct w; simpl in H; [done|].
    destruct (bool_decide (is_Some (l !! i))); simpl in H; [|by simplify_eq/=].
    destruct (page_Element ("#" +:+ i) b0) as [[err|el] b1]; simpl in H;
      [by simplify_eq/=|].
    destruct (element_Property el "value" b1) as [[err|v] b2]; simpl in H;
      [by simplify_eq/=|].
    destruct r; simpl in H; by simplify_eq/=.
Qed.

Lemma step_signals (a : action) (b : bool) :
  a ≠ CallDestroy → preserves (signals b) (step a).
Proof.
  intros Ha.
  assert (∀ ids, preserves (signals b) (range_setupListener ids)) as Hr.
  { intros ids. apply preserves_range. intros i _.
    unfold setupListener. preserves_tac. }
  destruct a as [url|i|i v|key dom|i|i| |k sel]; simpl; [| | | | | |done|].
  1-6: unfold Navigate, GetValue, SetValue, GetCookie, AddListener,
         RemoveListener, setupListener, page_MustWaitLoad;
       preserves_tac; apply Hr.
  intros s [] s' Hc H. unfold poll_step in H.
  destruct (goroutines s !! k) as [[i [|]]|]; [|by simplify_eq/= ..].
  unfold bind in H.
  destruct (pollElementValue_iter sel i s) as [[ctl| |] s1] eqn:E; [|done..].
  apply (pollElementValue_iter_signals _ _ _ _ _ b) in E; [|done].
  destruct ctl; unfold ret, set_goroutines in H; simplify_eq/=; done.
Qed.

Lemma Destroy_signals (s s' : State) (b : bool) :
  signals b s → Destroy s = (Ret tt, s') → b = false ∧ signals true s'.
Proof.
  intros [Hc Hs] H. destruct s as [[e l m cd sc td] b0 h g].
  unfold signals. simpl in *. subst.
  destruct b; munfold; simpl in H; [done|].
  destruct (page_Close b0) as [? b1]. simpl in H.
  destruct (browser_Close b1) as [? b2]. simpl in H.
  destruct td; simplify_eq/=; done.
Qed.

Lemma run_signals (acts : list action) (s s' : State) (b : bool) :
  signals b s → run acts s = (Ret tt, s') →
  signals (b || bool_decide (CallDestroy ∈ acts)) s'.
Proof.
  revert s b. induction acts as [|a acts IH]; intros s b Hs H; simpl in H.
  - unfold ret in H. simplify_eq. rewrite bool_decide_eq_false_2.
    + by rewrite orb_false_r.
    + by intros ?%elem_of_nil.
  - unfold bind in H. destruct (step a s) as [[[]| |] s1] eqn:E; [|done..].
    destruct (decide (a = CallDestroy)) as [->|Hne].
    + simpl in E. destruct (Destroy_signals _ _ _ Hs E) as [-> Hs1].
      apply (IH _ _ Hs1) in H.
      rewrite (bool_decide_eq_true_2 (CallDestroy ∈ CallDestroy :: acts)) by left.
      exact H.
    + pose proof (step_signals a b Hne s tt s1 Hs E) as Hs1.
      apply (IH _ _ Hs1) in H.
      replace (bool_decide (CallDestroy ∈ a :: acts))
        with (bool_decide (CallDestroy ∈ acts)); [done|].
      apply bool_decide_ext. rewrite elem_of_cons.
      split; [by right|]. intros [?|?]; [congruence|done].
Qed.

(** X4. Run returns exactly when Destroy has been called.  In every state the
    session reaches, the context is cancelled if and only if the stop channel
    is closed, and both if and only if Destroy has run: until then Run keeps
    its caller waiting, whatever else is called and whatever the watchers
    do. *)
Theorem Run_returns_iff_destroyed (opts : list ChromeOption) (h : Host)
    (s0 s : State) (acts : list action) :
  NewChromeWebView opts h = Some (Ret s0) →
  run acts s0 = (Ret tt, s) →
  signals (bool_decide (CallDestroy ∈ acts)) s
  ∧ (CallDestroy ∈ acts → Run s = (Ret tt, s))
  ∧ (CallDestroy ∉ acts → Run s = (Blocked, s)).
Proof.
  intros Hnew Hrun.
  assert (signals false s0) as H0.
  { unfold NewChromeWebView in Hnew. repeat case_match; by simplify_eq/=. }
  pose proof (run_signals _ _ _ _ H0 Hrun) as Hs. simpl in Hs.
  split; [done|]. destruct Hs as [Hc Hsc].
  destruct s as [[e l m cd sc td] b0 h1 g]. simpl in *. subst.
  split; intros Hd; unfold Run, bind, get_view; simpl.
  - by rewrite bool_decide_eq_true_2.
  - by rewrite bool_decide_eq_false_2.
Qed.

Lemma os_RemoveAll_lookup (p : path) (h : Host) (k : path) :
  fs (os_RemoveAll p h).2 !! k
  = if decide (p `prefix_of` k) then None else fs h !! k.
Proof.
  unfold os_RemoveAll, set_fs. cbn [snd fs]. case_decide as Hp.
  - apply map_lookup_filter_None. right. intros x _ Hn. by apply Hn.
  - destruct (fs h !! k) as [x|] eqn:E.
    + by apply map_lookup_filter_Some.
    + apply map_lookup_filter_None. by left.
Qed.

Lemma Destroy_disk (s : State) :
  stopChan_closed (view s) = false →
  ∃ s', Destroy s = (Ret tt, s')
    ∧ ∀ k, fs (host s') !! k
           = match view_tmpDir (view s) with
             | Some dir => if decide (dir `prefix_of` k) then None
                           else fs (host s) !! k
             | None => fs (host s) !! k
             end.
Proof.
  destruct s as [[e l m cd sc td] b h g]. simpl. intros ->.
  unfold Destroy. munfold. simpl.
  destruct (page_Close b) as [? b1]. simpl.
  destruct (browser_Close b1) as [? b2]. simpl.
  destruct td as [dir|]; simpl.
  - eexists. split; [reflexivity|]. intros k. apply (os_RemoveAll_lookup dir h k).
  - eexists. split; [reflexivity|]. done.
Qed.


Lemma pollElementValue_iter_disk (sel : select_case) (i : string)
    (s s' : State) (ctl : loop_ctl) (f : FS) (t : option path) :
  pollElementValue_iter sel i s = (Ret ctl, s') → disk f t s → disk f t s'.
Proof.
  intros H. destruct s as [[e l [r w] cd sc td] b0 h g]. munfold.
  unfold disk. simpl in *.
  destruct sel.
  - destruct cd; by simplify_eq/=.
  - destruct w; simpl in H; [done|].
    destruct (bool_decide (is_Some (l !! i))); simpl in H; [|by simplify_eq/=].
    destruct (page_Element ("#" +:+ i) b0) as [[err|el] b1]; simpl in H;
      [by simplify_eq/=|].
    destruct (element_Property el "value" b1) as [[err|v] b2]; simpl in H;
      [by simplify_eq/=|].
    destruct r; simpl in H; by simplify_eq/=.
Qed.

Lemma step_disk (a : action) (f : FS) (t : option path) :
  a ≠ CallDestroy → preserves (disk f t) (step a).
Proof.
  intros Ha.
  assert (∀ ids, preserves (disk f t) (range_setupListener ids)) as Hr.
  { intros ids. apply preserves_range. intros i _.
    unfold setupListener. preserves_tac. }
  destruct a as [url|i|i v|key dom|i|i| |k sel]; simpl; [| | | | | |done|].
  1-6: unfold Navigate, GetValue, SetValue, GetCookie, AddListener,
         RemoveListener, setupListener, page_MustWaitLoad;
       preserves_tac; apply Hr.
  intros s [] s' Hc H. unfold poll_step in H.
  destruct (goroutines s !! k) as [[i [|]]|]; [|by simplify_eq/= ..].
  unfold bind in H.
  destruct (pollElementValue_iter sel i s) as [[ctl| |] s1] eqn:E; [|done..].
  apply (pollElementValue_iter_disk _ _ _ _ _ f t) in E; [|done].
  destruct ctl; unfold ret, set_goroutines in H; simplify_eq/=; done.
Qed.

(** What the copy-existing-profile option leaves on the disk: nothing when
    the temporary directory could not be created, and otherwise nothing
    outside the new temporary directory. *)
Lemma WithCopiedProfile_footprint (fuel : nat) (profile : ChromeProfile)
    (o o' : chromeOptions) (h h' : Host) :
  (∀ k, k `prefix_of` tempDir h → is_Some (fs h !! k)) →
  WithCopiedProfile fuel profile o h = Some (o', h') →
  tempDir h' = tempDir h
  ∧ ((o' = o ∧ fs h' = fs h)
     ∨ ∃ x, let tmp := tempDir h ++ ["rod-wrap-profile-" +:+ x] in
            fs h !! tmp = None
            ∧ o' = mkOptions "Default" (Some tmp) (Some tmp) (headless o)
            ∧ fs h' !! tmp = Some (Dir 448)
            ∧ ∀ k, ¬ tmp `prefix_of` k → fs h' !! k = fs h !! k).
Proof.
  intros Hpre H. unfold WithCopiedProfile in H.
  destruct (os_MkdirTemp "rod-wrap-profile-" h) as [[err|tmp] h1] eqn:E;
    apply os_MkdirTemp_try_effect in E as (Hg & Hh & Hla & Ht & Hl & Hr).
  { inversion H; subst. simpl. split; [done|]. by left. }
  destruct Hr as ((x & _ & ->) & Hnone & Hins).
  set (tmp := tempDir h ++ ["rod-wrap-profile-" +:+ x]) in *.
  destruct (CopyProfile fuel profile (filepath_Join tmp ["Default"])
              (slog_Info "Copying profile" h1)) as [[r h2]|] eqn:Ec; [|done].
  apply copied_copyDir in Ec as ((?&?&?&Ht2&?) & _ & Hf2). simpl in *.
  set (h3 := match r with
             | Some _ => slog_Error "Failed to copy profile" h2
             | None => h2
             end) in *.
  assert (fs h3 = fs h2 ∧ tempDir h3 = tempDir h2) as [Hfs3 Ht3]
    by (by destruct r).
  destruct (copyFile (filepath_Join (GetChromeUserDataDir h3) ["Local State"])
              (filepath_Join tmp ["Local State"]) h3) as [cr h4] eqn:Ef.
  pose proof (copyFile_effect _ _ _ _ _ Ef) as ((?&?&?&Ht4&?) & _ & Hf4).
  assert (fs h' = fs h4 ∧ tempDir h' = tempDir h4
          ∧ o' = mkOptions "Default" (Some tmp) (Some tmp) (headless o))
    as (Hfs' & Ht' & ->).
  { destruct cr; destruct (os_ReadDir _ _); inversion H; subst; done. }
  split; [congruence|]. right. exists x. fold tmp. split; [done|]. split; [done|].
  assert (∀ k, k ≠ filepath_Join tmp ["Local State"] →
               (k `prefix_of` filepath_Join tmp ["Default"] → k `prefix_of` tmp) →
               ¬ (filepath_Join tmp ["Default"]) `prefix_of` k →
               (k `prefix_of` tmp → k ≠ tmp → is_Some (fs h !! k)) →
               fs h' !! k = <[tmp := Dir 448]> (fs h) !! k) as Hgen.
  { intros k Hk1 Hk2 Hk3 Hk4. rewrite Hfs', Hf4, Hfs3 by done. rewrite <- Hins.
    apply Hf2.
    - intros Hp%Hk2. rewrite Hins. destruct (decide (k = tmp)) as [->|Hne].
      + by rewrite lookup_insert_eq.
      + rewrite lookup_insert_ne by done. auto.
    - intros q ->. destruct Hk3. by apply prefix_app_r. }
  split.
  - rewrite Hgen; [by rewrite lookup_insert_eq|..].
    + apply snoc_ne_self.
    + intros [?|Hp]%prefix_snoc_inv; [done|].
      by apply snoc_ne_self in Hp.
    + intros Hp%prefix_length. unfold filepath_Join in Hp.
      rewrite length_app in Hp. simpl in Hp. lia.
    + done.
  - intros k Hk. rewrite Hgen.
    + apply lookup_insert_ne. intros <-. by apply Hk.
    + intros ->. apply Hk. by apply prefix_app_r.
    + intros [?|Hp]%prefix_snoc_inv; [done|]. subst k.
      destruct Hk. by apply prefix_app_r.
    + intros Hp. apply Hk. etrans; [|exact Hp]. by apply prefix_app_r.
    + intros [Hp|Hp]%prefix_snoc_inv _; [by apply Hpre|].
      subst k. by destruct Hk.
Qed.

(** X6. A session launched on a copy of a profile and destroyed later leaves the
    disk as it found it: whatever the copy put on the disk went below the
    temporary directory the option created, the session owns that directory,
    nothing the session is asked to do afterwards touches the disk, and
    Destroy removes the directory with everything below it. *)
Theorem copied_profile_session_leaves_no_trace (fuel : nat)
    (profile : ChromeProfile) (h : Host) (s0 s1 s2 : State) (acts : list action) :
  (∀ k, k `prefix_of` tempDir h → is_Some (fs h !! k)) →
  NewChromeWebView [WithCopiedProfile fuel profile] h = Some (Ret s0) →
  run acts s0 = (Ret tt, s1) →
  Destroy s1 = (Ret tt, s2) →
  match view_tmpDir (view s0) with
  | None => ∀ k, fs (host s2) !! k = fs h !! k
  | Some tmp =>
    fs h !! tmp = None
    ∧ fs (host s0) !! tmp = Some (Dir 448)
    ∧ ∀ k, fs (host s2) !! k
           = if decide (tmp `prefix_of` k) then None else fs h !! k
  end.
Proof.
  intros Hpre Hnew Hrun Hd.
  unfold NewChromeWebView in Hnew. simpl in Hnew.
  destruct (WithCopiedProfile fuel profile zero_chromeOptions h)
    as [[o' h']|] eqn:Ew; [|done].
  apply WithCopiedProfile_footprint in Ew as [_ Hfoot]; [|done].
  assert (disk (fs h') (tmpDir o') s0 ∧ signals false s0) as [Hd0 Hs0].
  { destruct launcher_LookPath; destruct (launcher_MustLaunch o');
      by simplify_eq/=. }
  pose proof (run_signals _ _ _ _ Hs0 Hrun) as Hs1. simpl in Hs1.
  assert (CallDestroy ∉ acts) as Hnd.
  { intros Hin. rewrite bool_decide_eq_true_2 in Hs1 by done.
    destruct Hs1 as [_ Hc]. destruct s1 as [[e l m cd sc td] b0 h1 g].
    simpl in Hc. subst sc. munfold. simpl in Hd. done. }
  assert (disk (fs h') (tmpDir o') s1) as [Hfs1 Ht1].
  { eapply (preserves_run (disk (fs h') (tmpDir o')) acts); [|exact Hd0|exact Hrun].
    intros a Ha. apply step_disk. intros ->. done. }
  destruct (Destroy_disk s1) as (s2' & Hd' & Hfs2).
  { rewrite bool_decide_eq_false_2 in Hs1 by done. by destruct Hs1. }
  rewrite Hd in Hd'. injection Hd' as <-.
  destruct Hd0 as [Hfs0 Ht0]. rewrite Ht0. rewrite Ht1, Hfs1 in Hfs2.
  destruct Hfoot as [[-> Hsame]|(x & Hnone & -> & Htmp & Hout)]; simpl in *.
  - intros k. by rewrite Hfs2, Hsame.
  - split; [done|]. split; [by rewrite Hfs0|].
    intros k. rewrite Hfs2.
    destruct (decide (tempDir h ++ ["rod-wrap-profile-" +:+ x] `prefix_of` k));
      [done|by apply Hout].
Qed.

Lemma GetCookie_loop_unscoped (cookies : list NetworkCookie) (key : string) :
  GetCookie_loop cookies key ""
  = default "" (CookieValue <$> head (filter (λ c, CookieName c = key) cookies)).
Proof.
  induction cookies as [|c cookies IH]; cbn [GetCookie_loop]; [done|].
  rewrite filter_cons. rewrite (bool_decide_eq_true_2 ("" = "")) by done.
  rewrite orb_true_r, orb_true_l, andb_true_r.
  destruct (decide (CookieName c = key)) as [Hc|Hc].
  - by rewrite bool_decide_eq_true_2.
  - by rewrite bool_decide_eq_false_2.
Qed.

(** X15. With an empty domain GetCookie asks the driver for the cookies without
    naming a URL and returns the value of the first cookie that has the name,
    whatever domain that cookie belongs to. *)
Theorem GetCookie_unscoped (s : State) (key : string) :
  ∃ v s', GetCookie key "" s = (Ret v, s')
    ∧ match (page_Cookies [] (browser s)).1 with
      | inl _ => v = ""
      | inr cookies =>
        v = default "" (CookieValue
                          <$> head (filter (λ c, CookieName c = key) cookies))
      end.
Proof.
  destruct s as [c b h g]. unfold GetCookie, bind, call. simpl.
  destruct (page_Cookies [] b) as [[err|cookies] b1]; simpl.
  - by eexists _, _.
  - eexists _, _. split; [reflexivity|]. apply GetCookie_loop_unscoped.
Qed.

(** From launch to Destroy a session leaves the disk as the options left it,
    and Destroy removes the temporary directory the options own. *)
Lemma session_disk (opts : list ChromeOption) (h h' : Host) (o : chromeOptions)
    (s0 s1 s2 : State) (acts : list action) :
  apply_options opts zero_chromeOptions h = Some (o, h') →
  NewChromeWebView opts h = Some (Ret s0) →
  run acts s0 = (Ret tt, s1) →
  Destroy s1 = (Ret tt, s2) →
  view_tmpDir (view s0) = tmpDir o
  ∧ ∀ k, fs (host s2) !! k
         = match tmpDir o with
           | Some dir => if decide (dir `prefix_of` k) then None else fs h' !! k
           | None => fs h' !! k
           end.
Proof.
  intros Ho Hnew Hrun Hd. unfold NewChromeWebView in Hnew. rewrite Ho in Hnew.
  assert (disk (fs h') (tmpDir o) s0 ∧ signals false s0) as [Hd0 Hs0].
  { destruct launcher_LookPath; destruct (launcher_MustLaunch o);
      by simplify_eq/=. }
  pose proof (run_signals _ _ _ _ Hs0 Hrun) as Hs1. simpl in Hs1.
  assert (CallDestroy ∉ acts) as Hnd.
  { intros Hin. rewrite bool_decide_eq_true_2 in Hs1 by done.
    destruct Hs1 as [_ Hc]. destruct s1 as [[e l m cd sc td] b0 h1 g].
    simpl in Hc. subst sc. munfold. simpl in Hd. done. }
  assert (disk (fs h') (tmpDir o) s1) as [Hfs1 Ht1].
  { eapply (preserves_run (disk (fs h') (tmpDir o)) acts); [|exact Hd0|exact Hrun].
    intros a Ha. apply step_disk. intros ->. done. }
  destruct (Destroy_disk s1) as (s2' & Hd' & Hfs2).
  { rewrite bool_decide_eq_false_2 in Hs1 by done. by destruct Hs1. }
  rewrite Hd in Hd'. injection Hd' as <-.
  destruct Hd0 as [_ Ht0]. split; [done|].
  intros k. by rewrite Hfs2, Ht1, Hfs1.
Qed.

Lemma temp_names_apart (p : path) (x y : string) :
  p ++ [x] ≠ p ++ [y] → ¬ p ++ [y] `prefix_of` p ++ [x].
Proof. intros Hne Hp%snoc_prefix_snoc. congruence. Qed.

(** X16. Two copy-existing-profile options leak a directory: the second one takes
    the place of the first in the options, so that the session owns only the
    second temporary directory, and after Destroy the first is still on the
    disk. *)
Theorem second_copied_profile_leaks_first (f1 f2 : nat) (p1 p2 : ChromeProfile)
    (h ha : Host) (o1 : chromeOptions) (t1 : path) (s0 s1 s2 : State)
    (acts : list action) :
  (∀ k, k `prefix_of` tempDir h → is_Some (fs h !! k)) →
  WithCopiedProfile f1 p1 zero_chromeOptions h = Some (o1, ha) →
  tmpDir o1 = Some t1 →
  NewChromeWebView [WithCopiedProfile f1 p1; WithCopiedProfile f2 p2] h
  = Some (Ret s0) →
  view_tmpDir (view s0) ≠ Some t1 →
  run acts s0 = (Ret tt, s1) →
  Destroy s1 = (Ret tt, s2) →
  fs (host s2) !! t1 = Some (Dir 448).
Proof.
  intros Hpre E1 Ht1 Hnew Hne Hrun Hd.
  destruct (apply_options [WithCopiedProfile f1 p1; WithCopiedProfile f2 p2]
              zero_chromeOptions h) as [[o2 hb]|] eqn:Eo;
    [|unfold NewChromeWebView in Hnew; by rewrite Eo in Hnew].
  destruct (session_disk _ _ _ _ _ _ _ _ Eo Hnew Hrun Hd) as [Hown Hfs].
  simpl in Eo. rewrite E1 in Eo.
  destruct (WithCopiedProfile f2 p2 o1 ha) as [[o2' hb']|] eqn:E2; [|done].
  injection Eo as -> ->.
  destruct (WithCopiedProfile_footprint _ _ _ _ _ _ Hpre E1)
    as [Hta [[-> _]|(x & Hnone1 & -> & Htmp1 & Hout1)]]; [done|].
  simpl in Ht1. injection Ht1 as <-.
  assert (∀ k, k `prefix_of` tempDir ha → is_Some (fs ha !! k)) as Hpre2.
  { intros k Hk. rewrite Hta in Hk. rewrite Hout1; [by apply Hpre|].
    intros Hp. assert (tempDir h ++ ["rod-wrap-profile-" +:+ x] `prefix_of` tempDir h)
      as Hp' by (by etrans).
    apply prefix_length in Hp'. rewrite length_app in Hp'. simpl in Hp'. lia. }
  destruct (WithCopiedProfile_footprint _ _ _ _ _ _ Hpre2 E2)
    as [_ [[-> _]|(y & Hnone2 & -> & _ & Hout2)]].
  { rewrite Hown in Hne. done. }
  rewrite Hta in *. rewrite Hfs. simpl.
  assert (tempDir h ++ ["rod-wrap-profile-" +:+ x]
          ≠ tempDir h ++ ["rod-wrap-profile-" +:+ y]) as Hxy.
  { intros Heq. rewrite <- Heq in Hnone2. congruence. }
  rewrite decide_False by (by apply temp_names_apart).
  rewrite Hout2 by (by apply temp_names_apart). done.
Qed.

End SessionFacts.

(** ** The properties on concrete inputs *)

Lemma C1_witness :
  mu_free (toy_state [])
  ∧ ∃ s', SetValue "missing" "v" (toy_state []) = (Ret tt, s')
      ∧ GetValue "missing" s' = (Ret "v", s').
Proof.
  split; [reflexivity|].
  destruct (C1_SetValue_then_GetValue (toy_state []) "missing" "v" eq_refl)
    as (s' & H1 & H2 & _).
  exists s'. split; [exact H1|exact H2].
Defined.




Lemma C4_witness :
  let acts := [CallSetValue "other" "1"; CallAddListener "b"; Poll 0 recv_ticker_C] in
  let s0 := mkState (mkView ∅ ∅ unlocked false false None) (mkToyBrowser ∅ ∅ [])
                    (slog_Info "Chrome launch args" toy_host) [] in
  NewChromeWebView [] toy_host = Some (Ret s0)
  ∧ Forall (λ a, passes "a" a = false) acts
  ∧ run acts s0 = (Ret tt, (run acts s0).2)
  ∧ GetValue "a" (run acts s0).2 = (Ret "", (run acts s0).2).
Proof.
  intros acts s0.
  assert (NewChromeWebView [] toy_host = Some (Ret s0)) as H0 by reflexivity.
  assert (Forall (λ a, passes "a" a = false) acts) as H1 by (repeat constructor).
  assert (run acts s0 = (Ret tt, (run acts s0).2)) as H2 by (vm_compute; reflexivity).
  split; [exact H0|]. split; [exact H1|]. split; [exact H2|].
  exact (proj1 (proj2 (C4_GetValue_absent "a")) [] toy_host s0 acts _ H0 H1 H2).
Defined.


Lemma C7_witness :
  let h' := match CopyProfile 2 demo_profile ["dst"] locked_host with
            | Some (_, h') => h'
            | None => locked_host
            end in
  CopyProfile 2 demo_profile ["dst"] locked_host = Some (None, h')
  ∧ copyDir_toplevel ["src"] ["dst"] locked_host = None
  ∧ log h' = [mkLog LevelWarn "Failed to copy file";
              mkLog LevelWarn "Failed to copy directory"].
Proof.
  intros h'.
  assert (CopyProfile 2 demo_profile ["dst"] locked_host = Some (None, h')) as Hc
    by (vm_compute; reflexivity).
  destruct (C7_CopyProfile_error_iff_toplevel demo_profile ["dst"] locked_host)
    as (Hres & _ & _).
  destruct (Hres _ _ _ Hc) as [Hr _].
  split; [exact Hc|]. split; [symmetry; exact Hr|]. vm_compute. reflexivity.
Defined.


Lemma C10_witness :
  let acts := [CallGetValue "a"; Poll 0 recv_ctx_Done] in
  let s1 := (Destroy (toy_state ["a"])).2 in
  let s2 := (run acts s1).2 in
  Destroy (toy_state ["a"]) = (Ret tt, s1)
  ∧ run acts s1 = (Ret tt, s2)
  ∧ (Destroy s2).1 = Panic "close of closed channel".
Proof.
  intros acts s1 s2.
  assert (Destroy (toy_state ["a"]) = (Ret tt, s1)) as H1 by (vm_compute; reflexivity).
  assert (run acts s1 = (Ret tt, s2)) as H2 by (vm_compute; reflexivity).
  split; [exact H1|]. split; [exact H2|].
  destruct (C10_Destroy_twice_panics _ _ _ acts H1 H2) as (s3 & H3 & _).
  rewrite H3. reflexivity.
Defined.

(** *** The further properties on concrete inputs *)

Lemma Navigate_returns_or_parks_witness :
  mu_free (toy_state ["b"])
  ∧ page_Navigate "page" (browser (toy_state ["b"])) = (None, toy_browser)
  ∧ page_WaitLoad toy_browser = (None, toy_browser)
  ∧ (Navigate "page" (toy_state ["b"])).1 = Blocked
  ∧ ∃ s', Navigate "page" (toy_state ["zz"]) = (Ret tt, s').
Proof.
  split; [reflexivity|]. split; [reflexivity|]. split; [reflexivity|]. split.
  - apply (Navigate_returns_or_parks (toy_state ["b"]) "page" toy_browser toy_browser);
      [reflexivity|reflexivity|reflexivity|].
    vm_compute. discriminate.
  - apply (Navigate_returns_or_parks (toy_state ["zz"]) "page" toy_browser toy_browser);
      [reflexivity|reflexivity|reflexivity|].
    vm_compute. reflexivity.
Defined.

Lemma AddListener_effect_witness :
  mu_free (toy_state [])
  ∧ ∃ s', AddListener "b" (toy_state []) = (Ret tt, s')
      ∧ listeners (view s') = <[ "b" := true ]> ∅
      ∧ goroutines s' = [mkGoroutine "b" true]
      ∧ GetValue "b" s' = (Ret "x", s').
Proof.
  split; [reflexivity|].
  destruct (AddListener_effect (toy_state []) "b" eq_refl)
    as (s' & H1 & _ & H2 & H3).
  exists s'. split; [exact H1|]. split; [exact H2|].
  change (page_Element ("#" +:+ "b") (browser (toy_state [])))
    with (@inr unit string "#b", toy_browser) in H3.
  destruct H3 as (Hg & _ & H3).
  change (match @inr unit string "x" with
          | inl _ => elements (view s') = elements (view (toy_state []))
          | inr v =>
            elements (view s') = <["b":=v]> (elements (view (toy_state [])))
            ∧ GetValue "b" s' = (Ret v, s')
          end) in H3.
  destruct H3 as [_ H3]. split; [exact Hg|exact H3].
Defined.


Lemma Run_returns_iff_destroyed_witness :
  let s0 := mkState (mkView ∅ ∅ unlocked false false None) (mkToyBrowser ∅ ∅ [])
                    (slog_Info "Chrome launch args" toy_host) [] in
  let before := (run [CallSetValue "a" "1"] s0).2 in
  let after := (run [CallSetValue "a" "1"; CallDestroy] s0).2 in
  NewChromeWebView [] toy_host = Some (Ret s0)
  ∧ run [CallSetValue "a" "1"] s0 = (Ret tt, before)
  ∧ run [CallSetValue "a" "1"; CallDestroy] s0 = (Ret tt, after)
  ∧ Run before = (Blocked, before)
  ∧ Run after = (Ret tt, after).
Proof.
  intros s0 before after.
  assert (NewChromeWebView [] toy_host = Some (Ret s0)) as H0 by reflexivity.
  assert (run [CallSetValue "a" "1"] s0 = (Ret tt, before)) as H1
    by (vm_compute; reflexivity).
  assert (run [CallSetValue "a" "1"; CallDestroy] s0 = (Ret tt, after)) as H2
    by (vm_compute; reflexivity).
  split; [exact H0|]. split; [exact H1|]. split; [exact H2|]. split.
  - apply (Run_returns_iff_destroyed [] toy_host s0 before _ H0 H1).
    intros Hin. apply elem_of_cons in Hin as [Hin|Hin]; [discriminate|].
    by apply elem_of_nil in Hin.
  - apply (Run_returns_iff_destroyed [] toy_host s0 after _ H0 H2).
    right. left.
Defined.


Lemma prefix_of_tmp (k : path) :
  k `prefix_of` ["tmp"] → k = [] ∨ k = ["tmp"].
Proof.
  intros Hk. apply (prefix_snoc_inv k [] "tmp") in Hk as [Hk|Hk].
  - left. by apply prefix_nil_inv in Hk.
  - by right.
Defined.

Lemma copied_profile_session_leaves_no_trace_witness :
  let tmp := ["tmp"; "rod-wrap-profile-7"] in
  let s0 := match NewChromeWebView [WithCopiedProfile 1 bare_profile] bare_host with
            | Some (Ret s) => s
            | _ => toy_state []
            end in
  let s1 := (run [CallNavigate "page"] s0).2 in
  let s2 := (Destroy s1).2 in
  NewChromeWebView [WithCopiedProfile 1 bare_profile] bare_host = Some (Ret s0)
  ∧ fs (host s0) !! (tmp ++ ["Default"; "Cookies"]) = Some (File 420 "c")
  ∧ run [CallNavigate "page"] s0 = (Ret tt, s1)
  ∧ Destroy s1 = (Ret tt, s2)
  ∧ ∀ k, fs (host s2) !! k
         = if decide (tmp `prefix_of` k) then None else bare_fs !! k.
Proof.
  intros tmp s0 s1 s2.
  assert (NewChromeWebView [WithCopiedProfile 1 bare_profile] bare_host
          = Some (Ret s0)) as H0 by (vm_compute; reflexivity).
  assert (run [CallNavigate "page"] s0 = (Ret tt, s1)) as H1
    by (vm_compute; reflexivity).
  assert (Destroy s1 = (Ret tt, s2)) as H2 by (vm_compute; reflexivity).
  split; [exact H0|]. split; [vm_compute; reflexivity|].
  split; [exact H1|]. split; [exact H2|].
  pose proof (copied_profile_session_leaves_no_trace 1 bare_profile bare_host
                s0 s1 s2 [CallNavigate "page"]) as H.
  assert (view_tmpDir (view s0) = Some tmp) as Ht by (vm_compute; reflexivity).
  rewrite Ht in H. apply H; [|exact H0|exact H1|exact H2].
  intros k [->| ->]%prefix_of_tmp; exists (Dir 493); vm_compute; reflexivity.
Defined.

Lemma src_apart_dst : apart ["src"] ["dst"].
Proof. split; intros Hp; apply prefix_cons_inv_1 in Hp; discriminate. Defined.

Lemma CopyProfile_never_removes_witness :
  let h' := match CopyProfile 2 demo_profile ["tmp"] locked_host with
            | Some (_, h') => h'
            | None => locked_host
            end in
  CopyProfile 2 demo_profile ["tmp"] locked_host = Some (None, h')
  ∧ fs h' !! ["tmp"] = Some (Dir 493)
  ∧ ∃ d', fs h' !! ["src"; "secret"] = Some (File 0 d').
Proof.
  intros h'.
  assert (CopyProfile 2 demo_profile ["tmp"] locked_host = Some (None, h')) as Hc
    by (vm_compute; reflexivity).
  destruct (CopyProfile_never_removes 2 demo_profile ["tmp"] locked_host h' None Hc)
    as (Hd & Hf & _).
  split; [exact Hc|]. split.
  - apply Hd. reflexivity.
  - apply (Hf ["src"; "secret"] 0%N "x"). reflexivity.
Defined.

Lemma CopyProfile_outside_destination_witness :
  let h' := match CopyProfile 2 demo_profile ["dst"] locked_host with
            | Some (_, h') => h'
            | None => locked_host
            end in
  CopyProfile 2 demo_profile ["dst"] locked_host = Some (None, h')
  ∧ apart (Path demo_profile) ["dst"]
  ∧ fs h' !! ["src"; "Cookies"] = Some (File 420 "c")
  ∧ fs h' !! ["tmp"] = Some (Dir 493).
Proof.
  intros h'.
  assert (CopyProfile 2 demo_profile ["dst"] locked_host = Some (None, h')) as Hc
    by (vm_compute; reflexivity).
  destruct (CopyProfile_outside_destination 2 demo_profile ["dst"] locked_host h' None Hc)
    as (Hex & _ & Hsrc & _).
  split; [exact Hc|]. split; [exact src_apart_dst|]. split.
  - etrans; [apply (Hsrc src_apart_dst)|reflexivity]. by exists ["Cookies"].
  - etrans; [apply Hex|reflexivity].
    + intros Hp. apply prefix_cons_inv_1 in Hp. discriminate.
    + eexists. reflexivity.
Defined.


Lemma CopyProfile_onto_itself_truncates_witness :
  let h' := match CopyProfile 1 demo_profile ["src"] demo_host with
            | Some (_, h') => h'
            | None => demo_host
            end in
  CopyProfile 1 demo_profile (Path demo_profile) demo_host = Some (None, h')
  ∧ fs demo_host !! (Path demo_profile ++ ["data.db"]) = Some (File 420 "d")
  ∧ fs h' !! (Path demo_profile ++ ["data.db"]) = Some (File 420 "").
Proof.
  intros h'.
  assert (CopyProfile 1 demo_profile (Path demo_profile) demo_host = Some (None, h'))
    as Hc by (vm_compute; reflexivity).
  split; [exact Hc|]. split; [reflexivity|].
  apply (CopyProfile_onto_itself_truncates 1 demo_profile demo_host h' "data.db"
           420%N "d" Hc); reflexivity.
Defined.

Lemma WithCopiedProfile_missing_profile_witness :
  let gone := mkChromeProfile "Gone" "Profile 9" ["home"; "nowhere"] in
  let tmp := ["tmp"; "rod-wrap-profile-7"] in
  fs chrome_host !! Path gone = None
  ∧ (os_MkdirTemp "rod-wrap-profile-" chrome_host).1 = inr tmp
  ∧ ∃ h', WithCopiedProfile 1 gone zero_chromeOptions chrome_host
          = Some (mkOptions "Default" (Some tmp) (Some tmp) false, h')
      ∧ fs h' !! (tmp ++ ["Default"]) = None.
Proof.
  intros gone tmp. split; [reflexivity|]. split; [reflexivity|].
  destruct (WithCopiedProfile_missing_profile 0 gone zero_chromeOptions chrome_host
              (os_MkdirTemp "rod-wrap-profile-" chrome_host).2 tmp)
    as (h' & rec & H1 & _ & H2 & _); [reflexivity|reflexivity|discriminate|reflexivity|].
  exists h'. split; [exact H1|exact H2].
Defined.

Lemma WithChromeProfile_of_listed_witness :
  let cp := mkChromeProfile "Person 1" "Default"
              ["home"; ".config"; "google-chrome"; "Default"] in
  ListChromeProfiles listed_host = inr [cp]
  ∧ cp ∈ [cp]
  ∧ ∃ o', WithChromeProfile cp zero_chromeOptions listed_host = Some (o', listed_host)
      ∧ userDataDir o' = Some ["home"; ".config"; "google-chrome"]
      ∧ profileDir o' = "Default".
Proof.
  intros cp.
  assert (ListChromeProfiles listed_host = inr [cp]) as Hl by (vm_compute; reflexivity).
  assert (cp ∈ [cp]) as Hin by left.
  split; [exact Hl|]. split; [exact Hin|].
  destruct (WithChromeProfile_of_listed listed_host [cp] cp zero_chromeOptions Hl Hin)
    as (o' & udd & H1 & _).
  exists o'. split; [exact H1|]. injection H1 as <-. split; reflexivity.
Defined.

Lemma launch_options_invariants_witness :
  let opts := [WithHeadless; WithUserDataDir ["data"]; WithProfile "Work"] in
  Forall plain_option opts
  ∧ ∃ o', apply_options opts (mkOptions "" None (Some ["tmp"; "t"]) false) demo_host
          = Some (o', demo_host)
      ∧ tmpDir o' = Some ["tmp"; "t"].
Proof.
  intros opts.
  assert (Forall plain_option opts) as Hp by (repeat constructor).
  split; [exact Hp|].
  exact (proj2 (launch_options_invariants opts
                  (mkOptions "" None (Some ["tmp"; "t"]) false) demo_host) Hp).
Defined.


Lemma second_copied_profile_leaks_first_witness :
  let t1 := ["tmp"; "rod-wrap-profile-7"] in
  let opts := [WithCopiedProfile 1 bare_profile; WithCopiedProfile 1 bare_profile] in
  let r1 := match WithCopiedProfile 1 bare_profile zero_chromeOptions bare_host with
            | Some r => r
            | None => (zero_chromeOptions, bare_host)
            end in
  let s0 := match NewChromeWebView opts bare_host with
            | Some (Ret s) => s
            | _ => toy_state []
            end in
  let s2 := (Destroy s0).2 in
  WithCopiedProfile 1 bare_profile zero_chromeOptions bare_host = Some (r1.1, r1.2)
  ∧ tmpDir r1.1 = Some t1
  ∧ NewChromeWebView opts bare_host = Some (Ret s0)
  ∧ view_tmpDir (view s0) = Some ["tmp"; "rod-wrap-profile-8"]
  ∧ Destroy s0 = (Ret tt, s2)
  ∧ fs (host s2) !! t1 = Some (Dir 448).
Proof.
  intros t1 opts r1 s0 s2.
  assert (WithCopiedProfile 1 bare_profile zero_chromeOptions bare_host
          = Some (r1.1, r1.2)) as E1 by (vm_compute; reflexivity).
  assert (tmpDir r1.1 = Some t1) as Et by (vm_compute; reflexivity).
  assert (NewChromeWebView opts bare_host = Some (Ret s0)) as H0
    by (vm_compute; reflexivity).
  assert (view_tmpDir (view s0) = Some ["tmp"; "rod-wrap-profile-8"]) as Ht
    by (vm_compute; reflexivity).
  assert (Destroy s0 = (Ret tt, s2)) as H2 by (vm_compute; reflexivity).
  split; [exact E1|]. split; [exact Et|]. split; [exact H0|].
  split; [exact Ht|]. split; [exact H2|].
  refine (second_copied_profile_leaks_first 1 1 bare_profile bare_profile
            bare_host r1.2 r1.1 t1 s0 s0 s2 [] _ E1 Et H0 _ eq_refl H2).
  - intros k [->| ->]%prefix_of_tmp; exists (Dir 493); vm_compute; reflexivity.
  - rewrite Ht. discriminate.
Defined.
